(** * Stickerei: catalogue scrapers and price lookup

    A shallow embedding of the PDF scripts of the repository
    ([scraper/extract_prices_position.py], [scraper/extract_product_info.py],
    [scraper/scrape_pdf_images.py]) and of [search_price.py], with the
    properties of the specification stated and settled over it.

    Python [str] values are sequences of Unicode code points, so a string is
    a [list N] here: the currency sign is the single code point 8364, as it
    is for [re] and for [str.replace]. *)

From Stdlib Require Import NArith List Bool Lia PrimFloat.
From stdpp Require Import base option list gmap strings pretty sorting.

(** ** Strings *)

Module Str.

Local Open Scope N_scope.

Definition pystr := list N.

(** The code points of an ASCII literal. *)
Definition lit (s : string) : pystr :=
  map (fun a => N.of_nat (Ascii.nat_of_ascii a))
      (String.list_ascii_of_string s).

Arguments lit : simpl never.

Definition euro : N := 8364.
Definition comma : N := 44.
Definition dot : N := 46.
Definition newline : N := 10.
Definition space : N := 32.
Definition bar : N := 124.

Definition in_range (c : N) (r : N * N) : bool :=
  (fst r <=? c) && (c <=? snd r).

(** [str.isspace], which is also what [\s] matches in a [str] pattern. *)
Definition space_ranges : list (N * N) :=
  [(9, 13); (28, 32); (133, 133); (160, 160); (5760, 5760); (8192, 8202);
   (8232, 8233); (8239, 8239); (8287, 8287); (12288, 12288)].

Definition isspace (c : N) : bool := existsb (in_range c) space_ranges.

(** [str.isdecimal], which is what [\d] matches in a [str] pattern
    (Unicode 14.0, category Nd). *)
Definition digit_ranges : list (N * N) :=
  [(48, 57); (1632, 1641); (1776, 1785); (1984, 1993); (2406, 2415);
   (2534, 2543); (2662, 2671); (2790, 2799); (2918, 2927); (3046, 3055);
   (3174, 3183); (3302, 3311); (3430, 3439); (3558, 3567); (3664, 3673);
   (3792, 3801); (3872, 3881); (4160, 4169); (4240, 4249); (6112, 6121);
   (6160, 6169); (6470, 6479); (6608, 6617); (6784, 6793); (6800, 6809);
   (6992, 7001); (7088, 7097); (7232, 7241); (7248, 7257); (42528, 42537);
   (43216, 43225); (43264, 43273); (43472, 43481); (43504, 43513);
   (43600, 43609); (44016, 44025); (65296, 65305); (66720, 66729);
   (68912, 68921); (69734, 69743); (69872, 69881); (69942, 69951);
   (70096, 70105); (70384, 70393); (70736, 70745); (70864, 70873);
   (71248, 71257); (71360, 71369); (71472, 71481); (71904, 71913);
   (72016, 72025); (72784, 72793); (73040, 73049); (73120, 73129);
   (92768, 92777); (92864, 92873); (93008, 93017); (120782, 120831);
   (123200, 123209); (123632, 123641); (125264, 125273); (130032, 130041)].

Definition isdecimal (c : N) : bool := existsb (in_range c) digit_ranges.

(** [[A-Za-z0-9]] *)
Definition isalnum_ascii (c : N) : bool :=
  in_range c (65, 90) || in_range c (97, 122) || in_range c (48, 57).

(** [s.lstrip()], [s.rstrip()], [s.strip()] *)
Fixpoint lstrip (s : pystr) : pystr :=
  match s with
  | c :: s' => if isspace c then lstrip s' else s
  | [] => []
  end.

Definition rstrip (s : pystr) : pystr := rev (lstrip (rev s)).

Definition strip (s : pystr) : pystr := rstrip (lstrip s).

(** [s.replace(a, b)] for one-character [a] and [b]. *)
Definition replace (a b : N) (s : pystr) : pystr :=
  map (fun c => if c =? a then b else c) s.

Fixpoint eqb (s t : pystr) : bool :=
  match s, t with
  | [], [] => true
  | c :: s', d :: t' => (c =? d) && eqb s' t'
  | _, _ => false
  end.

Fixpoint startswith (p s : pystr) : bool :=
  match p, s with
  | [], _ => true
  | c :: p', d :: s' => (c =? d) && startswith p' s'
  | _ :: _, [] => false
  end.

(** [p in s] for strings: [p] occurs in [s] as a contiguous run. *)
Fixpoint contains (p s : pystr) : bool :=
  startswith p s ||
  match s with
  | [] => false
  | _ :: s' => contains p s'
  end.

(** [s.split(sep)[0]] for a non-empty [sep]: the text before the first
    occurrence of [sep], or all of [s] when there is none. *)
Fixpoint before_first (sep s : pystr) : pystr :=
  if startswith sep s then []
  else match s with
       | [] => []
       | c :: s' => c :: before_first sep s'
       end.

(** [s.split(c, 1)] when [c in s]: the text before the first [c] and the
    text after it; [None] when [c] does not occur. *)
Fixpoint split_once (c : N) (s : pystr) : option (pystr * pystr) :=
  match s with
  | [] => None
  | d :: s' =>
      if d =? c then Some ([], s')
      else match split_once c s' with
           | Some (a, b) => Some (d :: a, b)
           | None => None
           end
  end.

End Str.

(** ** Regular expressions

    Python's [re] is a backtracking matcher: alternatives are tried left to
    right, a greedy repetition tries one more iteration before it tries to
    stop, a lazy one the other way round, and the first way through the
    whole pattern wins.  [run] is that matcher in continuation-passing
    style.  An iteration of a repetition has to consume a character; every
    repeated sub-pattern of the scripts does. *)

Module Re.
Import Str.

Inductive regex :=
| Eps
| Cls (p : N -> bool)
| Cat (r1 r2 : regex)
| Alt (r1 r2 : regex)
| Rep (greedy : bool) (lo : nat) (hi : option nat) (r : regex)
| Grp (g : string) (r : regex)
| Ahead (r : regex)
| Bos.

(** Where the matcher stands: the offset in the subject and the text from
    there on. *)
Record cursor := Cursor { pos : nat; rest : pystr }.

Abbreviation caps := (gmap string pystr).

Definition below (hi : option nat) (cnt : nat) : bool :=
  match hi with
  | None => true
  | Some h => cnt <? h
  end.

Definition consumed (st st' : cursor) : pystr :=
  take (pos st' - pos st) (rest st).

(** The loop of a repetition, over the matcher [step] of its body: [cnt]
    iterations are done, and [fuel] bounds the iterations still to come,
    of which each consumes a character. *)
Fixpoint rep_loop {R : Type}
    (step : cursor -> caps -> (cursor -> caps -> option R) -> option R)
    (greedy : bool) (lo : nat) (hi : option nat)
    (k : cursor -> caps -> option R)
    (fuel cnt : nat) (st : cursor) (cs : caps) {struct fuel} : option R :=
  let more :=
    fun _ : unit =>
      match fuel with
      | O => None
      | S fuel' =>
          if below hi cnt then
            step st cs
              (fun st' cs' =>
                 if pos st <? pos st'
                 then rep_loop step greedy lo hi k fuel' (S cnt) st' cs'
                 else None)
          else None
      end in
  let stop := fun _ : unit => if lo <=? cnt then k st cs else None in
  if greedy then
    match more tt with Some x => Some x | None => stop tt end
  else
    match stop tt with Some x => Some x | None => more tt end.

Fixpoint run {R : Type} (r : regex) (st : cursor) (cs : caps)
    (k : cursor -> caps -> option R) {struct r} : option R :=
  match r with
  | Eps => k st cs
  | Cls p =>
      match rest st with
      | c :: s' => if p c then k (Cursor (S (pos st)) s') cs else None
      | [] => None
      end
  | Cat r1 r2 => run r1 st cs (fun st' cs' => run r2 st' cs' k)
  | Alt r1 r2 =>
      match run r1 st cs k with
      | Some x => Some x
      | None => run r2 st cs k
      end
  | Rep greedy lo hi r' =>
      rep_loop (run r') greedy lo hi k (length (rest st)) 0 st cs
  | Grp g r' =>
      run r' st cs (fun st' cs' => k st' (<[g := consumed st st']> cs'))
  | Ahead r' =>
      match run r' st cs (fun _ cs' => Some cs') with
      | Some cs' => k st cs'
      | None => None
      end
  | Bos => if pos st =? 0 then k st cs else None
  end.

(** *** Building patterns *)

Definition chr (c : N) : regex := Cls (N.eqb c).
Definition any_of (cs : list N) : regex :=
  Cls (fun c => existsb (N.eqb c) cs).
Definition none_of (cs : list N) : regex :=
  Cls (fun c => negb (existsb (N.eqb c) cs)).
Definition star (r : regex) : regex := Rep true 0 None r.
Definition plus (r : regex) : regex := Rep true 1 None r.
Definition lazy_star (r : regex) : regex := Rep false 0 None r.
Definition lazy_plus (r : regex) : regex := Rep false 1 None r.
Definition opt (r : regex) : regex := Rep true 0 (Some 1) r.
Definition ws : regex := Cls isspace.
Definition digit : regex := Cls isdecimal.

Fixpoint cat (rs : list regex) : regex :=
  match rs with
  | [] => Eps
  | [r] => r
  | r :: rs' => Cat r (cat rs')
  end.

Fixpoint alt (rs : list regex) : regex :=
  match rs with
  | [] => Cls (fun _ => false)
  | [r] => r
  | r :: rs' => Alt r (alt rs')
  end.

Definition word (s : pystr) : regex := cat (map chr s).

(** *** Match objects and the module functions *)

Record match_obj := Match {
  m_start : nat;
  m_end : nat;
  m_text : pystr;
  m_groups : caps
}.

(** [m.group(g)] for a group that took part in the match. *)
Definition group (g : string) (mo : match_obj) : pystr :=
  default [] (m_groups mo !! g).

(** One attempt at one position.  After an empty match the next attempt at
    the same position has to advance ([must_advance] of the C matcher). *)
Definition attempt (r : regex) (must_advance : bool) (st : cursor)
    : option match_obj :=
  run r st ∅
    (fun st' cs =>
       if must_advance && (pos st' =? pos st) then None
       else Some (Match (pos st) (pos st') (consumed st st') cs)).

(** The scan behind [finditer] and [sub]: the subject cut into the matches
    and the characters between them. *)
Inductive piece :=
| Gap (c : N)
| Hit (mo : match_obj).

Fixpoint pieces (r : regex) (at_ skip : nat) (s : pystr) {struct s}
    : list piece :=
  match skip with
  | S skip' =>
      match s with
      | _ :: s' => pieces r (S at_) skip' s'
      | [] => []
      end
  | O =>
      let next :=
        fun skip' : nat =>
          match s with
          | c :: s' => pieces r (S at_) skip' s'
          | [] => []
          end in
      let gap :=
        match s with
        | c :: s' => Gap c :: pieces r (S at_) 0 s'
        | [] => []
        end in
      match attempt r false (Cursor at_ s) with
      | None => gap
      | Some mo =>
          if m_end mo =? at_ then
            match attempt r true (Cursor at_ s) with
            | None => Hit mo :: gap
            | Some mo' => Hit mo :: Hit mo' :: next (m_end mo' - at_ - 1)
            end
          else Hit mo :: next (m_end mo - at_ - 1)
      end
  end.

Definition hits (ps : list piece) : list match_obj :=
  omap (fun p => match p with Hit mo => Some mo | Gap _ => None end) ps.

(** [list(re.finditer(r, s))] *)
Definition finditer (r : regex) (s : pystr) : list match_obj :=
  hits (pieces r 0 0 s).

(** [re.search(r, s)] *)
Definition search (r : regex) (s : pystr) : option match_obj :=
  head (finditer r s).

(** [re.match(r, s)] *)
Definition match_ (r : regex) (s : pystr) : option match_obj :=
  attempt r false (Cursor 0 s).

(** [re.sub(r, repl, s)] for a replacement without back-references. *)
Definition sub (r : regex) (repl s : pystr) : pystr :=
  concat (map (fun p => match p with Gap c => [c] | Hit _ => repl end)
              (pieces r 0 0 s)).


(** *** What a pattern matches

    [matches r st cs st' cs'] says that [r] can take the matcher from the
    cursor [st] with the groups [cs] to the cursor [st'] with the groups
    [cs'].  The matcher [run] only ever finds such ways through a
    pattern. *)

Inductive matches : regex -> cursor -> caps -> cursor -> caps -> Prop :=
| M_eps st cs : matches Eps st cs st cs
| M_cls p i c s cs :
    p c = true -> matches (Cls p) (Cursor i (c :: s)) cs (Cursor (S i) s) cs
| M_cat r1 r2 st cs st1 cs1 st2 cs2 :
    matches r1 st cs st1 cs1 -> matches r2 st1 cs1 st2 cs2 ->
    matches (Cat r1 r2) st cs st2 cs2
| M_alt_l r1 r2 st cs st' cs' :
    matches r1 st cs st' cs' -> matches (Alt r1 r2) st cs st' cs'
| M_alt_r r1 r2 st cs st' cs' :
    matches r2 st cs st' cs' -> matches (Alt r1 r2) st cs st' cs'
| M_rep_stop g hi r st cs : matches (Rep g 0 hi r) st cs st cs
| M_rep_more g lo hi r st cs st1 cs1 st2 cs2 :
    below hi 0 = true ->
    matches r st cs st1 cs1 ->
    pos st < pos st1 ->
    matches (Rep g (pred lo) (pred <$> hi) r) st1 cs1 st2 cs2 ->
    matches (Rep g lo hi r) st cs st2 cs2
| M_grp g r st cs st' cs' :
    matches r st cs st' cs' ->
    matches (Grp g r) st cs st' (<[g := consumed st st']> cs')
| M_ahead r st cs st' cs' :
    matches r st cs st' cs' -> matches (Ahead r) st cs st cs'
| M_bos st cs : pos st = 0 -> matches Bos st cs st cs.

(** [st'] is [st] moved over the word [w]. *)
Definition span (st st' : cursor) (w : pystr) : Prop :=
  rest st = w ++ rest st' /\ pos st' = pos st + length w.


(** What a successful attempt returns. *)
Definition found (r : regex) (st : cursor) (mo : match_obj) : Prop :=
  exists st' w,
    matches r st ∅ st' (m_groups mo) /\ span st st' w /\
    m_start mo = pos st /\ m_end mo = pos st' /\ m_text mo = w.

(** A piece of a scan that, when it is a match, is such a result. *)
Definition hit_found (r : regex) (p : piece) : Prop :=
  match p with
  | Hit mo => exists st, found r st mo
  | Gap _ => True
  end.

(** The characters of the subject that a piece stands for. *)
Definition width (p : piece) : nat :=
  match p with
  | Gap _ => 1
  | Hit mo => m_end mo - m_start mo
  end.

End Re.

(** ** Runs and their effects

    What a script does to the outside is kept as a trace of events; a
    computation yields its trace and either a value or nothing, when an
    exception left it. *)

Module Eff.
Import Str.

Inductive event (row : Type) :=
| Opened (path : string)
| Closed
| MadeDirs (path : string)
| Printed (line : pystr)
| WroteCsv (path : string) (fieldnames : list string) (rows : list row)
| SavedImage (path : string).

Arguments Opened {row} path.
Arguments Closed {row}.
Arguments MadeDirs {row} path.
Arguments Printed {row} line.
Arguments WroteCsv {row} path fieldnames rows.
Arguments SavedImage {row} path.

Definition io (row A : Type) : Type := list (event row) * option A.

Definition ret {row A} (a : A) : io row A := ([], Some a).

Definition raise {row A} : io row A := ([], None).

Definition emit {row} (e : event row) : io row unit := ([e], Some tt).

Definition bind {row A B} (c : io row A) (f : A -> io row B) : io row B :=
  match c with
  | (t, Some a) => let (t', r) := f a in (t ++ t', r)
  | (t, None) => (t, None)
  end.

Definition trace {row A} (c : io row A) : list (event row) := fst c.


(** [str(n)] for a non-negative integer. *)
Definition str_nat (n : nat) : pystr := lit (pretty n).
Arguments str_nat : simpl never.

(** [s.rjust(w)] and [s.ljust(w)], the padding of [{s:>w}] and [{s:<w}]. *)
Definition rjust (w : nat) (s : pystr) : pystr :=
  repeat space (w - length s) ++ s.

Definition ljust (w : nat) (s : pystr) : pystr :=
  s ++ repeat space (w - length s).


(** A trace of nothing but prints. *)
Definition printed_only {row} (t : list (event row)) : Prop :=
  Forall (fun e => exists line, e = Printed line) t.

End Eff.

Declare Scope io_scope.
Delimit Scope io_scope with io.
Notation "x <- c ;; k" := (Eff.bind c (fun x => k))
  (at level 100, c at next level, right associativity) : io_scope.
Notation "c ;;; k" := (Eff.bind c (fun _ => k))
  (at level 100, right associativity) : io_scope.

(** One [print] per line. *)
Fixpoint print_all {row} (lines : list Str.pystr) : Eff.io row unit :=
  match lines with
  | [] => Eff.ret tt
  | l :: lines' => (Eff.emit (Eff.Printed l) ;;; print_all lines')%io
  end.

(** ** [scraper/extract_prices_position.py] *)

Module Prices.
Import Str Re Eff.

(** A document as PyMuPDF hands it over: the text of each page, or nothing
    for a page whose [get_text()] raises. *)
Definition document := list (option pystr).

(** The rows of the script: dicts with the keys Page, ID, Name, Price. *)
Record product := Product {
  Page : nat;
  ID : pystr;
  Name : pystr;
  Price : pystr
}.

Definition alnum : regex := Cls isalnum_ascii.

(** [(?P<id>[A-Za-z0-9]+(?:\.[A-Za-z0-9]+)+)\s*\|\s*(?P<name>[^\n€]+)] *)
Definition id_name_re : regex :=
  cat [Grp "id" (Cat (plus alnum) (plus (Cat (chr dot) (plus alnum))));
       star ws; chr bar; star ws;
       Grp "name" (plus (none_of [newline; euro]))].

(** [€\s*(?P<price>\d+[\.,]\d{1,2})] *)
Definition price_re : regex :=
  cat [chr euro; star ws;
       Grp "price" (cat [plus digit; any_of [dot; comma];
                         Rep true 1 (Some 2) digit])].

Definition not_found : pystr := lit "Not found".

(** The price of the [i]-th identifier match of a page. *)
Definition price_at (price_matches : list match_obj) (i : nat) : pystr :=
  match price_matches !! i with
  | Some pm => replace comma dot (group "price" pm)
  | None => not_found
  end.

(** The body of the page loop: the records of one page. *)
Definition page_products (page_num : nat) (text : pystr) : list product :=
  let id_name_matches := finditer id_name_re text in
  let price_matches := finditer price_re text in
  imap (fun i id_match =>
          let price := price_at price_matches i in
          Product page_num
                  (group "id" id_match)
                  (strip (group "name" id_match))
                  (if eqb price not_found then price else euro :: price))
       id_name_matches.

Fixpoint pages_from (page_num : nat) (doc : document)
    (product_data : list product) : io product (list product) :=
  match doc with
  | [] => ret product_data
  | None :: _ => raise
  | Some text :: doc' =>
      pages_from (S page_num) doc'
                 (product_data ++ page_products page_num text)
  end.

(** [extract_product_data(pdf_path)]; [None] is a file that does not open. *)
Definition extract_product_data (pdf_path : string) (file : option document)
    : io product (list product) :=
  match file with
  | None => raise
  | Some doc => (emit (Opened pdf_path) ;;; pages_from 1 doc [])%io
  end.

(** [\s+] and [\s*\n\s*] *)
Definition spaces_re : regex := plus ws.
Definition newline_re : regex := cat [star ws; chr newline; star ws].

Definition clean_product_name (name : pystr) : pystr :=
  let name := sub spaces_re [space] name in
  let name := sub newline_re [space] name in
  strip name.

(** The filter of the script: the valid records, with their names cleaned. *)
Definition valid (p : product) : bool := 3 <? length (strip (Name p)).

Definition cleaned_products (products : list product) : list product :=
  map (fun p => Product (Page p) (ID p) (clean_product_name (Name p))
                        (Price p))
      (filter (fun p => valid p = true) products).

Definition sep : pystr := lit " | ".

Definition product_line (p : product) : pystr :=
  lit "Page " ++ rjust 2 (str_nat (Page p)) ++ sep ++ rjust 10 (ID p) ++ sep
  ++ ljust 50 (take 50 (Name p)) ++ sep ++ Price p.

Definition pdf_path : string := "catalogue_2024_subset.pdf".

Definition fieldnames : list string := ["Page"; "ID"; "Name"; "Price"].

(** The line of the count. *)
Definition total_line (n : nat) : pystr :=
  newline :: lit "Total valid products found: " ++ str_nat n.

(** The module body, which is the run of the script. *)
Definition script (file : option document) : io product unit :=
  (products <- extract_product_data pdf_path file ;;
   let cleaned := cleaned_products products in
   emit (Printed (lit "EXTRACTED PRODUCTS:" ++ [newline])) ;;;
   print_all (map product_line (take 50 cleaned)) ;;;
   emit (WroteCsv "product_prices_accurate.csv" fieldnames cleaned) ;;;
   emit (Printed (total_line (length cleaned))) ;;;
   emit (Printed (lit "Results saved to product_prices_accurate.csv")))%io.


(** The characters that end a name: those that the class of the name
    group leaves out. *)
Definition terminator (c : N) : Prop :=
  c = newline \/ c = euro.

End Prices.

(** ** [scraper/extract_product_info.py] *)

Module Info.
Import Str Re Eff.

Definition document := list (option pystr).

(** The rows of the script: dicts with the keys page, id, name,
    description, sizes, price, full_text. *)
Record product := Product {
  page : nat;
  id : pystr;
  name : pystr;
  description : pystr;
  sizes : pystr;
  price : pystr;
  full_text : pystr
}.

Definition hyphen : N := 45.
Definition en_dash : N := 8211.
Definition asterisk : N := 42.
Definition superscript_two : N := 178.

(** [^[\.\s]+] *)
Definition leading_re : regex :=
  Cat Bos (plus (Cls (fun c => N.eqb c dot || isspace c))).

(** [^([^,]+?)(?:\s+\d+g/m²|,)] *)
Definition name_re : regex :=
  cat [Bos; Grp "1" (lazy_plus (none_of [comma]));
       Alt (cat [plus ws; plus digit;
                 word (lit "g/m" ++ [superscript_two])])
           (chr comma)].

(** [^([^,]+)] *)
Definition name_fallback_re : regex :=
  Cat Bos (Grp "1" (plus (none_of [comma]))).

Definition size_tokens : list regex :=
  [word (lit "XS"); word (lit "S"); word (lit "M"); word (lit "L");
   word (lit "XL"); word (lit "XXL"); Cat (plus digit) (word (lit "XL"))].

(** [sizes_pattern]: group 1 is a size token, XS, S, M, L, XL, XXL or digits
    and XL; then any number of runs of a dash (en dash or hyphen) between
    optional whitespace and a size token, which there may also be digits,
    XL and an asterisk; then lazily any characters but the currency sign.
    After the group, a lookahead for digits, optional whitespace and the
    currency sign, or for digits, whitespace, digits, optional whitespace
    and the currency sign. *)
Definition sizes_pattern : regex :=
  Cat (Grp "1"
         (cat [alt size_tokens;
               star (cat [star ws; any_of [en_dash; hyphen]; star ws;
                          alt (size_tokens
                               ++ [Cat (plus digit) (word (lit "XL*"))])]);
               lazy_star (none_of [euro])]))
      (Ahead (Alt (cat [plus digit; star ws; chr euro])
                  (cat [plus digit; plus ws; plus digit; star ws;
                        chr euro]))).

(** [\s*\*[^€]*] and [\s{2,}] *)
Definition footnote_re : regex :=
  cat [star ws; chr asterisk; star (none_of [euro])].
Definition wide_space_re : regex := Rep true 2 None ws.

(** [price_pattern]: the currency sign, optional whitespace, and group 1:
    digits, then any number of runs of one of [,.-] and digits. *)
Definition price_pattern : regex :=
  cat [chr euro; star ws;
       Grp "1" (Cat (plus digit)
                    (star (Cat (any_of [comma; dot; hyphen]) (plus digit))))].

(** [\s+] *)
Definition spaces_re : regex := plus ws.

(** [parse_product_text(text_chunk, page_num)].  None of the string and
    [re] calls of the body raises on a [str], so the handler of the
    function is never entered. *)
Definition parse_product_text (text_chunk : pystr) (page_num : nat)
    : option product :=
  match split_once bar text_chunk with
  | None => None
  | Some (part0, part1) =>
      let id_part := strip part0 in
      let rest_text := strip part1 in
      let product_id := strip (sub leading_re [] id_part) in
      let name_match :=
        match match_ name_re rest_text with
        | Some mo => Some mo
        | None => match_ name_fallback_re rest_text
        end in
      let name :=
        match name_match with
        | Some mo => strip (group "1" mo)
        | None => []
        end in
      let sizes :=
        match search sizes_pattern rest_text with
        | Some mo => strip (group "1" mo)
        | None => []
        end in
      let sizes :=
        match sizes with
        | [] => sizes
        | _ :: _ => sub wide_space_re [space] (sub footnote_re [asterisk] sizes)
        end in
      let price :=
        match search price_pattern rest_text with
        | Some mo => group "1" mo
        | None => []
        end in
      let description :=
        match sizes with
        | [] => rest_text
        | _ :: _ => strip (before_first sizes rest_text)
        end in
      let description := strip (sub spaces_re [space] description) in
      Some (Product page_num product_id name description sizes price
                    (take 500 text_chunk))
  end.

Definition slash : Ascii.ascii := Ascii.ascii_of_nat 47.

(** [os.path.join(folder, file)] for a relative [file]. *)
Definition path_join (folder file : string) : string :=
  match rev (String.list_ascii_of_string folder) with
  | [] => file
  | a :: _ =>
      if Ascii.eqb a slash then folder +:+ file
      else folder +:+ "/" +:+ file
  end.

Definition check_mark : pystr := [10003%N; space].
Definition warning : pystr := [9888%N; 65039%N; space].
Definition page_icon : pystr := [128196%N; space].
Definition target_icon : pystr := [127919%N; space].
Definition disk_icon : pystr := [128190%N; space].

(** The loop over the matches of one page; the state is the record list
    and the two counters. *)
Fixpoint matches_loop (text_content : pystr) (page_num : nat)
    (matches : list match_obj)
    (extracted_products : list product) (page_products total_found : nat)
    : io product (list product * nat * nat) :=
  match matches with
  | [] => ret (extracted_products, page_products, total_found)
  | mo :: matches' =>
      let text_chunk := take 1000 (drop (m_start mo) text_content) in
      match parse_product_text text_chunk (page_num + 1) with
      | Some product_data =>
          (emit (Printed (check_mark ++ lit "Found product on page "
                          ++ str_nat (page_num + 1) ++ lit ": "
                          ++ id product_data ++ lit " | "
                          ++ name product_data)) ;;;
           matches_loop text_content page_num matches'
                        (extracted_products ++ [product_data])
                        (page_products + 1) (total_found + 1))%io
      | None =>
          matches_loop text_content page_num matches'
                       extracted_products page_products total_found
      end
  end.

Fixpoint pages_loop (pattern : regex) (page_num : nat) (doc : document)
    (extracted_products : list product) (total_found : nat)
    : io product (list product * nat) :=
  match doc with
  | [] => ret (extracted_products, total_found)
  | None :: _ => raise
  | Some text_content :: doc' =>
      (st <- matches_loop text_content page_num
                          (finditer pattern text_content)
                          extracted_products 0 total_found ;;
       let '(extracted_products, page_products, total_found) := st in
       (if 0 <? page_products then
          emit (Printed (page_icon ++ lit "Page " ++ str_nat (page_num + 1)
                         ++ lit ": Found " ++ str_nat page_products
                         ++ lit " products"))
        else ret tt) ;;;
       pages_loop pattern (S page_num) doc' extracted_products total_found)%io
  end.

Definition fieldnames : list string :=
  ["page"; "id"; "name"; "description"; "sizes"; "price"; "full_text"].

(** The line of the count, and the notice of a run that found nothing. *)
Definition found_line (n : nat) : pystr :=
  newline :: target_icon ++ lit "Total products found: " ++ str_nat n.

Definition nothing_line : pystr :=
  warning ++ lit "No products found to save".

(** [extract_product_text_data(pdf_path, output_folder, pattern)]; [None]
    is a file that does not open.  The pattern is one without [^], [$] and
    [.], as the default and the patterns of the docstring are, so that the
    flags of the call change nothing. *)
Definition extract_product_text_data (pdf_path output_folder : string)
    (pattern : regex) (file : option document) : io product unit :=
  match file with
  | None => raise
  | Some doc =>
      (emit (Opened pdf_path) ;;;
       emit (MadeDirs output_folder) ;;;
       st <- pages_loop pattern 0 doc [] 0 ;;
       let '(extracted_products, total_found) := st in
       emit (Printed (found_line total_found)) ;;;
       match extracted_products with
       | _ :: _ =>
           let csv_path := path_join output_folder "product_data.csv" in
           emit (WroteCsv csv_path fieldnames extracted_products) ;;;
           emit (Printed (disk_icon ++ lit "Product data saved to: "
                          ++ lit csv_path))
       | [] => emit (Printed nothing_line)
       end ;;;
       emit Closed)%io
  end.

(** [[\d\w]+\.[\d\w]+[A-Z]?\s*\|], the default pattern, over the word
    characters [\w] of the Unicode database. *)
Definition default_pattern (isword : N -> bool) : regex :=
  let dw := Cls (fun c => isdecimal c || isword c) in
  cat [plus dw; chr dot; plus dw; opt (Cls (fun c => in_range c (65, 90)%N));
       star ws; chr bar].



End Info.

(** ** [scraper/scrape_pdf_images.py] *)

Module Images.
Import Str Re Eff.

(** [fitz.Rect]: four Python floats. *)
Record rect := Rect { x0 : float; y0 : float; x1 : float; y1 : float }.

(** A text block of [page.get_text("blocks")]: a tuple of seven fields, of
    which the script reads the first five, so the guard on tuples shorter
    than five never fires. *)
Record block := Block { b_rect : rect; b_text : pystr }.

(** What a call into PyMuPDF gives: a value, or the message of the
    exception it raises. *)
Inductive outcome (A : Type) :=
| Ok (a : A)
| Fails (msg : pystr).
Arguments Ok {A} a.
Arguments Fails {A} msg.

(** [fitz.Pixmap(doc, xref)]: the decoded image.  [colorspace] is [None]
    for a mask; [to_rgb] is the outcome of the conversion to RGB, which
    keeps the dimensions. *)
Record pixmap := Pixmap {
  width : nat;
  height : nat;
  colorspace : option nat;
  to_rgb : outcome unit
}.

(** An entry of [page.get_images(full=True)], with what the look-ups by
    its [xref] return.  [image_rects] is [None] when
    [page.get_image_rects(xref)] raises: the call stands outside the [try]
    of the loop, so its exception ends the run. *)
Record image := Image {
  xref : nat;
  image_rects : option (list rect);
  decoded : outcome pixmap
}.

(** A page: what [page.get_images(full=True)] and
    [page.get_text("blocks")] return, [None] for a call that raises. *)
Record page := Page {
  images : option (list image);
  text_blocks : option (list block)
}.

Definition document := list page.

(** The rows of the script. *)
Record row := Row {
  r_page : nat;
  r_image_index : nat;
  r_filename : string;
  r_width : nat;
  r_height : nat;
  r_full_text : pystr;
  r_id : pystr;
  r_name : pystr
}.

(** [\d+\.\d+\s*\|], the default pattern. *)
Definition default_pattern : regex :=
  cat [plus digit; chr dot; plus digit; star ws; chr bar].

Definition default_min_size : nat := 200.

(** The three comparisons of lines 55 to 57, in float arithmetic. *)
Definition below_image (img_rect text_rect : rect) : bool :=
  PrimFloat.ltb (y1 img_rect) (y0 text_rect).

Definition aligned (img_rect text_rect : rect) : bool :=
  PrimFloat.ltb (PrimFloat.abs (PrimFloat.sub (x0 text_rect) (x0 img_rect)))
                100%float.

Definition close_to (img_rect text_rect : rect) : bool :=
  PrimFloat.ltb (PrimFloat.sub (y0 text_rect) (y1 img_rect)) 50%float.

Definition associated (img_rect text_rect : rect) : bool :=
  below_image img_rect text_rect && aligned img_rect text_rect
  && close_to img_rect text_rect.

Definition matches_pattern (pattern : regex) (text_content : pystr) : bool :=
  match search pattern text_content with
  | Some _ => true
  | None => false
  end.

(** The loop over the text blocks, which the script runs twice with the
    same test: the stripped text of the first block that is associated
    with the image and matches the pattern. *)
Fixpoint matching_text (pattern : regex) (img_rect : rect)
    (blocks : list block) : option pystr :=
  match blocks with
  | [] => None
  | blk :: blocks' =>
      let text_content := strip (b_text blk) in
      if associated img_rect (b_rect blk)
         && matches_pattern pattern text_content
      then Some text_content
      else matching_text pattern img_rect blocks'
  end.

Definition filename (page_num img_index : nat) : string :=
  "page_" +:+ pretty (page_num + 1) +:+ "_img_" +:+ pretty (img_index + 1)
  +:+ ".png".

Definition on_image (page_num img_index : nat) : pystr :=
  lit "image " ++ str_nat (img_index + 1) ++ lit " on page "
  ++ str_nat (page_num + 1).

Definition size_text (pix : pixmap) : pystr :=
  str_nat (width pix) ++ lit "x" ++ str_nat (height pix) ++ lit "px".

(** The row of an image that is saved. *)
Definition make_row (page_num img_index : nat) (pix : pixmap)
    (text : pystr) : row :=
  let '(id_part, name_part) :=
    match split_once bar text with
    | Some (part0, part1) =>
        (strip (sub Info.leading_re [] (strip part0)), strip part1)
    | None => ([], [])
    end in
  Row (page_num + 1) (img_index + 1) (filename page_num img_index)
      (width pix) (height pix) text id_part name_part.

(** The body of the loop over the images of a page: the row of the image
    when it is extracted. *)
Definition process_image (output_folder : string) (pattern : regex)
    (min_size : nat) (blocks : list block) (page_num img_index : nat)
    (img : image) : io row (option row) :=
  match image_rects img with
  | None => raise
  | Some [] => ret None
  | Some (img_rect :: _) =>
      match matching_text pattern img_rect blocks with
      | None => ret None
      | Some text_content =>
          (emit (Printed (Info.check_mark ++ lit "Found matching text: '"
                          ++ strip text_content ++ lit "'")) ;;;
           let failed msg :=
             emit (Printed (Info.warning ++ lit "Error processing "
                            ++ on_image page_num img_index ++ lit ": "
                            ++ msg)) ;;;
             ret None in
           match decoded img with
           | Fails msg => failed msg
           | Ok pix =>
               match colorspace pix with
               | None =>
                   failed (lit "'NoneType' object has no attribute 'n'")
               | Some n =>
                   match (if (n =? 1) || (n =? 3) then Ok tt
                          else to_rgb pix) with
                   | Fails msg =>
                       emit (Printed (Info.warning ++ lit "Skipping "
                                      ++ on_image page_num img_index
                                      ++ lit ": " ++ msg)) ;;;
                       ret None
                   | Ok _ =>
                       if (width pix <? min_size)
                          || (height pix <? min_size)
                       then
                         emit (Printed
                                 (Info.warning ++ lit "Skipping small "
                                  ++ on_image page_num img_index ++ lit ": "
                                  ++ size_text pix ++ lit " (min: "
                                  ++ str_nat min_size ++ lit "x"
                                  ++ str_nat min_size ++ lit "px)")) ;;;
                         ret None
                       else
                         emit (SavedImage
                                 (Info.path_join output_folder
                                    (filename page_num img_index))) ;;;
                         emit (Printed
                                 (Info.check_mark
                                  ++ lit "Saved image from page "
                                  ++ str_nat (page_num + 1) ++ lit ", image "
                                  ++ str_nat (img_index + 1) ++ lit " ("
                                  ++ size_text pix ++ lit ")")) ;;;
                         ret (Some
                                (make_row page_num img_index pix
                                   (default []
                                      (matching_text pattern img_rect
                                                     blocks))))
                   end
               end
           end)%io
      end
  end.

Fixpoint images_loop (output_folder : string) (pattern : regex)
    (min_size : nat) (blocks : list block) (page_num img_index : nat)
    (imgs : list image) (extracted_data : list row)
    : io row (list row) :=
  match imgs with
  | [] => ret extracted_data
  | img :: imgs' =>
      (r <- process_image output_folder pattern min_size blocks page_num
                          img_index img ;;
       images_loop output_folder pattern min_size blocks page_num
                   (S img_index) imgs'
                   (match r with
                    | Some data => extracted_data ++ [data]
                    | None => extracted_data
                    end))%io
  end.

Fixpoint pages_loop (output_folder : string) (pattern : regex)
    (min_size : nat) (page_num : nat) (doc : document)
    (extracted_data : list row) : io row (list row) :=
  match doc with
  | [] => ret extracted_data
  | pg :: doc' =>
      match images pg with
      | None => raise
      | Some [] =>
          pages_loop output_folder pattern min_size (S page_num) doc'
                     extracted_data
      | Some imgs =>
          match text_blocks pg with
          | None => raise
          | Some blocks =>
              (data <- images_loop output_folder pattern min_size blocks
                                   page_num 0 imgs extracted_data ;;
               let page_extracted := length data - length extracted_data in
               (if 0 <? page_extracted then
                  emit (Printed (Info.page_icon ++ lit "Page "
                                 ++ str_nat (page_num + 1)
                                 ++ lit ": Extracted "
                                 ++ str_nat page_extracted ++ lit " images"))
                else ret tt) ;;;
               pages_loop output_folder pattern min_size (S page_num) doc'
                          data)%io
          end
      end
  end.

(** [extract_images_with_pattern(pdf_path, output_folder, pattern,
    min_size)]; [None] is a file that does not open. *)
Definition extract_images_with_pattern (pdf_path output_folder : string)
    (pattern : regex) (min_size : nat) (file : option document)
    : io row unit :=
  match file with
  | None => raise
  | Some doc =>
      (emit (Opened pdf_path) ;;;
       emit (MadeDirs output_folder) ;;;
       extracted_data <- pages_loop output_folder pattern min_size 0 doc [] ;;
       emit (Printed (newline :: Info.target_icon
                      ++ lit "Total images extracted: "
                      ++ str_nat (length extracted_data))) ;;;
       match extracted_data with
       | _ :: _ =>
           let csv_path :=
             Info.path_join output_folder "extracted_images.csv" in
           emit (WroteCsv csv_path
                          ["page"; "image_index"; "filename"; "width";
                           "height"; "full_text"; "id"; "name"]
                          extracted_data) ;;;
           emit (Printed (Info.disk_icon ++ lit "CSV data saved to: "
                          ++ lit csv_path))
       | [] => ret tt
       end ;;;
       emit Closed)%io
  end.


(** A block that the loop over the text blocks passes over. *)
Definition passed (pattern : regex) (img_rect : rect) (blk : block) : Prop :=
  associated img_rect (b_rect blk)
  && matches_pattern pattern (strip (b_text blk)) = false.

(** A row of an image that is not small. *)
Definition big (min_size : nat) (r : row) : Prop :=
  min_size <= r_width r /\ min_size <= r_height r.

(** The rows that a loop adds, when it returns, are rows of images that
    are not small. *)
Definition adds_big (min_size : nat) (acc : list row)
    (res : option (list row)) : Prop :=
  match res with
  | Some out => exists new, out = acc ++ new /\ Forall (big min_size) new
  | None => True
  end.

(** A trace in which no CSV file is written. *)
Definition no_csv (t : list (event row)) : Prop :=
  forall path fields rows, WroteCsv path fields rows ∉ t.

End Images.

(** ** [search_price.py] *)

Module Search.
Import Str Eff.

(** A row of [csv.DictReader]: a dict from column names to strings. *)
Abbreviation product := (gmap string pystr).

(** [str.lower] on ASCII text. *)
Definition ascii_lower (s : pystr) : pystr :=
  map (fun c => if in_range c (65, 90)%N then (c + 32)%N else c) s.

Section Lookup.

(** [str.lower], which the Unicode database of the interpreter defines. *)
Variable lower : pystr -> pystr.

(** [find_price(products, query)]; [None] is the [KeyError] of a row
    without the column [name]. *)
Fixpoint matching (query_lower : pystr) (products : list product)
    : option (list product) :=
  match products with
  | [] => Some []
  | p :: products' =>
      match p !! "name" with
      | None => None
      | Some name =>
          match matching query_lower products' with
          | None => None
          | Some matches =>
              Some (if contains query_lower (lower name) then p :: matches
                    else matches)
          end
      end
  end.

Definition find_price (products : list product) (query : pystr)
    : option (list product) :=
  let query_lower := lower query in
  matching query_lower products.

Definition product_line (p : product) : pystr :=
  let name := default (lit "Unknown") (p !! "name") in
  let price := default (lit "N/A") (p !! "price") in
  let prod_id := default [] (p !! "id") in
  match prod_id with
  | _ :: _ =>
      name ++ lit " (ID: " ++ prod_id ++ lit ") -> Price: " ++ price
  | [] => name ++ lit " -> Price: " ++ price
  end.

(** [main()], on the table that [load_products()] returns and the line
    that [input] reads. *)
Definition main (products : list product) (line : pystr) : io unit unit :=
  let query := strip line in
  match query with
  | [] => emit (Printed (lit "No product name entered"))
  | _ :: _ =>
      match find_price products query with
      | None => raise
      | Some [] => emit (Printed (lit "Product not found"))
      | Some matches => print_all (map product_line matches)
      end
  end.


(** The name of [p], lowered, contains the lowered query. *)
Definition name_contains (query : pystr) (p : product) : Prop :=
  exists name pre post,
    p !! "name" = Some name /\ lower name = pre ++ lower query ++ post.

(** The test of the comprehension of [find_price], on a row with a name. *)
Definition name_containsb (query : pystr) (p : product) : bool :=
  match p !! "name" with
  | Some name => contains (lower query) (lower name)
  | None => false
  end.

End Lookup.

End Search.

(** ** Sample inputs *)

Module Samples.
Import Str.

(** A page with three identifiers and two prices; a chunk as the field
    sub-parser gets it; a document of two pages, the second without a
    product; a text block below an image that is too small and one that is
    large enough; a product table. *)

Definition sample_page : pystr :=
  lit "16.1426 | Cotton Shirt " ++ [euro] ++ lit " 19,99" ++ [newline]
  ++ lit "01.003T |a  b" ++ [newline]
  ++ lit "x.y | zz," ++ [euro] ++ lit "5.5".

Definition sample_chunk : pystr :=
  lit "16.1426 | Cotton Shirt, 180g/m" ++ [Info.superscript_two]
  ++ lit " XS - S - M - L " ++ [euro] ++ lit " 19,99".


Definition sample_block : Images.block :=
  Images.Block (Images.Rect 10 310 300 330) (lit "16.1426 | Cotton Shirt").

Definition small_image : Images.image :=
  Images.Image 7 (Some [Images.Rect 0 0 300 300])
               (Images.Ok (Images.Pixmap 150 300 (Some 3) (Images.Ok tt))).

Definition large_image : Images.image :=
  Images.Image 8 (Some [Images.Rect 0 0 300 300])
               (Images.Ok (Images.Pixmap 640 480 (Some 3) (Images.Ok tt))).

Definition sample_table : list Search.product :=
  [list_to_map [("id", lit "16.1426"); ("name", lit "Cotton Shirt");
                ("price", lit "19.99")];
   list_to_map [("id", lit "01.003T"); ("name", lit "Wool Scarf");
                ("price", lit "5.5")];
   list_to_map [("name", lit "T-SHIRT"); ("price", lit "7.25")]].

End Samples.

(** ** Plain functions to compare the patterns with *)

Module Plain.
Import Str Re.

(** The length of the longest prefix of [s] whose characters satisfy [p]. *)
Fixpoint run_length (p : N -> bool) (s : pystr) : nat :=
  match s with
  | c :: s' => if p c then S (run_length p s') else 0
  | [] => 0
  end.

(** The text that [sub] builds from the pieces of a scan. *)
Definition render (repl : pystr) (ps : list piece) : pystr :=
  concat (map (fun p => match p with Gap c => [c] | Hit _ => repl end) ps).

(** Every run of whitespace replaced by one space: what the substitution
    of [\s+] by a space is to compute.  [in_run] says that the character
    before was whitespace. *)
Fixpoint collapse_from (in_run : bool) (s : pystr) : pystr :=
  match s with
  | [] => []
  | c :: s' =>
      if isspace c then
        if in_run then collapse_from true s'
        else space :: collapse_from true s'
      else c :: collapse_from false s'
  end.

Definition collapse (s : pystr) : pystr := collapse_from false s.

(** A text in which whitespace occurs only as single spaces. *)
Definition single_spaced (s : pystr) : Prop :=
  Forall (fun c => isspace c = true -> c = space) s /\
  forall before c d after,
    s = before ++ c :: d :: after -> isspace c = true -> isspace d = false.

(** A text that neither starts nor ends with whitespace. *)
Definition trimmed (s : pystr) : Prop :=
  (forall c s', s = c :: s' -> isspace c = false) /\
  (forall c s', s = s' ++ [c] -> isspace c = false).

(** A text made of a first segment and one or more further segments, each
    after a separator: the separators satisfy [q], the segments are
    non-empty runs of [p]. *)
Definition segment (p : N -> bool) (seg : pystr) : Prop :=
  seg <> [] /\ Forall (fun c => p c = true) seg.

Definition joined (segs : list (N * pystr)) : pystr :=
  concat (map (fun '(sep, seg) => sep :: seg) segs).

Definition separated (q p : N -> bool) (first : pystr)
    (segs : list (N * pystr)) : Prop :=
  segment p first /\
  Forall (fun '(sep, seg) => q sep = true /\ segment p seg) segs.

(** The characters that [^[\.\s]+] takes. *)
Definition dot_or_space (c : N) : bool := N.eqb c dot || isspace c.

(** The characters that [[^,]] takes. *)
Definition not_comma (c : N) : bool := negb (existsb (N.eqb c) [comma]).

(** A pattern without groups. *)
Fixpoint groupless (r : regex) : bool :=
  match r with
  | Eps | Bos | Cls _ => true
  | Cat r1 r2 | Alt r1 r2 => groupless r1 && groupless r2
  | Rep _ _ _ r' | Ahead r' => groupless r'
  | Grp _ _ => false
  end.

(** The characters that a pattern can consume all satisfy [P]. *)
Fixpoint accepts (P : N -> Prop) (r : regex) : Prop :=
  match r with
  | Eps | Bos | Ahead _ => True
  | Cls p => forall c, p c = true -> P c
  | Cat r1 r2 | Alt r1 r2 => accepts P r1 /\ accepts P r2
  | Rep _ _ _ r' | Grp _ r' => accepts P r'
  end.

End Plain.

(** ** Shapes of the fields of a record *)

Module Shape.
Import Str Re Plain.

(** An amount as [extract_product_data] leaves it: digits, a dot, and one
    or two digits. *)
Definition decimal_amount (s : pystr) : Prop :=
  exists whole frac,
    s = whole ++ dot :: frac /\
    segment isdecimal whole /\ segment isdecimal frac /\ length frac <= 2.

(** An identifier: segments of ASCII letters and digits with a dot between
    each two, at least two of them. *)
Definition dotted_id (s : pystr) : Prop :=
  exists first segs,
    s = first ++ joined segs /\ segs <> [] /\
    separated (N.eqb dot) isalnum_ascii first segs.

(** The characters between the digits of an amount in
    [parse_product_text]. *)
Definition amount_separator (c : N) : bool :=
  existsb (N.eqb c) [comma; dot; Info.hyphen].

(** An amount as [parse_product_text] keeps it: runs of digits with one
    of [,.-] between each two. *)
Definition amount_text (s : pystr) : Prop :=
  exists first segs,
    s = first ++ joined segs /\
    separated amount_separator isdecimal first segs.

End Shape.

(** ** The output of a run, in closed form *)

Module Closed.
Import Str Re Eff.



(** The lines that the run prints for a page: one for each record, and a
    summary when there is a record. *)
Definition record_line (page_num : nat) (p : Info.product) : pystr :=
  Info.check_mark ++ lit "Found product on page " ++ str_nat (page_num + 1)
  ++ lit ": " ++ Info.id p ++ lit " | " ++ Info.name p.


End Closed.

(** ** What a run of [extract_images_with_pattern] leaves behind *)

Module Saved.
Import Str Re Eff Images.

(** The paths of the image files that a trace saves, in order. *)
Definition saves (t : list (event row)) : list string :=
  omap (fun e => match e with SavedImage path => Some path | _ => None end)
       t.

(** A trace of prints and saved images only. *)
Definition inner (t : list (event row)) : Prop :=
  Forall (fun e => match e with
                   | Printed _ | SavedImage _ => True
                   | _ => False
                   end) t.

(** The conditions under which the loop saves an image, as [pix], for the
    text [text]. *)
Definition saveable (pattern : regex) (min_size : nat) (blocks : list block)
    (img : image) (pix : pixmap) (text : pystr) : Prop :=
  exists img_rect rects n,
    image_rects img = Some (img_rect :: rects) /\
    matching_text pattern img_rect blocks = Some text /\
    decoded img = Ok pix /\
    colorspace pix = Some n /\
    (n = 1 \/ n = 3 \/ exists u, to_rgb pix = Ok u) /\
    min_size <= width pix /\ min_size <= height pix.

(** An image, a page and a document on which every call into PyMuPDF
    that the run makes outside its [try] returns: [get_images] on every
    page, and on a page with images [get_text("blocks")] and
    [get_image_rects] for every image. *)
Definition image_read (img : image) : bool :=
  match image_rects img with Some _ => true | None => false end.

Definition page_read (pg : page) : bool :=
  match images pg with
  | None => false
  | Some [] => true
  | Some imgs =>
      match text_blocks pg with
      | None => false
      | Some _ => forallb image_read imgs
      end
  end.

Definition readable (doc : document) : bool := forallb page_read doc.

(** The path of the file of a row. *)
Definition row_path (output_folder : string) (r : row) : string :=
  Info.path_join output_folder (r_filename r).

(** Rows in the order of the pages and, on a page, of its images. *)
Definition row_before (a b : row) : Prop :=
  r_page a < r_page b \/
  (r_page a = r_page b /\ r_image_index a < r_image_index b).


(** The rows of one page: of that page, numbered after [img_index] in
    increasing order, each under its file name. *)
Definition page_rows (page_num img_index count : nat) (rows : list row)
    : Prop :=
  Forall (fun r =>
            r_page r = page_num + 1 /\
            img_index < r_image_index r <= img_index + count /\
            r_filename r = filename page_num (r_image_index r - 1)) rows /\
  StronglySorted (fun a b => r_image_index a < r_image_index b) rows.

(** The rows of a document from the page [page_num] on. *)
Definition document_rows (page_num count : nat) (rows : list row) : Prop :=
  Forall (fun r =>
            page_num < r_page r <= page_num + count /\
            1 <= r_image_index r /\
            r_filename r = filename (r_page r - 1) (r_image_index r - 1))
         rows /\
  StronglySorted row_before rows.


End Saved.

(** * Properties *)

Module ReFacts.
Import Str Re.

Lemma below_shift hi cnt :
  below hi cnt = true -> below ((fun h => h - cnt) <$> hi) 0 = true.
Proof.
  destruct hi as [h|]; simpl; [|done].
  rewrite !Nat.ltb_lt. lia.
Qed.

Lemma shift_pred (hi : option nat) cnt :
  pred <$> ((fun h => h - cnt) <$> hi) = (fun h => h - S cnt) <$> hi.
Proof. destruct hi as [h|]; simpl; [f_equal; lia|done]. Qed.

Lemma shift_zero (hi : option nat) : (fun h => h - 0) <$> hi = hi.
Proof. destruct hi as [h|]; simpl; [f_equal; lia|done]. Qed.

Section Loop.
Context {R : Type}.
Variable step : cursor -> caps -> (cursor -> caps -> option R) -> option R.
Variable r : regex.
Hypothesis step_sound : forall st cs k x,
  step st cs k = Some x ->
  exists st' cs', matches r st cs st' cs' /\ k st' cs' = Some x.

Lemma rep_loop_sound g lo hi k fuel : forall cnt st cs x,
  rep_loop step g lo hi k fuel cnt st cs = Some x ->
  exists st' cs',
    matches (Rep g (lo - cnt) ((fun h => h - cnt) <$> hi) r) st cs st' cs'
    /\ k st' cs' = Some x.
Proof.
  induction fuel as [|fuel IH]; intros cnt st cs x H.
  - simpl in H.
    destruct (lo <=? cnt) eqn:E; [|destruct g; discriminate].
    apply Nat.leb_le in E. replace (lo - cnt) with 0 by lia.
    exists st, cs. split; [constructor|].
    destruct g; [exact H|]. destruct (k st cs); [exact H|discriminate].
  - assert (Hcases :
      ((lo <=? cnt) = true /\ k st cs = Some x) \/
      (below hi cnt = true /\
       step st cs (fun st' cs' =>
                     if pos st <? pos st'
                     then rep_loop step g lo hi k fuel (S cnt) st' cs'
                     else None) = Some x)).
    { simpl in H.
      destruct g.
      - destruct (below hi cnt).
        + destruct (step st cs _) eqn:E1.
          * right. split; [done|]. congruence.
          * left. destruct (lo <=? cnt); [done|discriminate].
        + left. destruct (lo <=? cnt); [done|discriminate].
      - destruct (lo <=? cnt).
        + destruct (k st cs) eqn:E1.
          * left. split; [done|]. congruence.
          * right. destruct (below hi cnt); [done|discriminate].
        + right. destruct (below hi cnt); [done|discriminate]. }
    destruct Hcases as [[E Hk]|[E Hs]].
    + apply Nat.leb_le in E. replace (lo - cnt) with 0 by lia.
      exists st, cs. split; [constructor|exact Hk].
    + apply step_sound in Hs as (st1 & cs1 & Hm & Hs).
      destruct (pos st <? pos st1) eqn:Hlt; [|discriminate].
      apply Nat.ltb_lt in Hlt.
      apply IH in Hs as (st' & cs' & Hrep & Hk).
      exists st', cs'. split; [|exact Hk].
      eapply M_rep_more; [by apply below_shift|exact Hm|exact Hlt|].
      rewrite shift_pred. replace (pred (lo - cnt)) with (lo - S cnt) by lia.
      exact Hrep.
Qed.
End Loop.

Lemma run_sound r : forall R st cs (k : cursor -> caps -> option R) x,
  run r st cs k = Some x ->
  exists st' cs', matches r st cs st' cs' /\ k st' cs' = Some x.
Proof.
  induction r as [|p|r1 IH1 r2 IH2|r1 IH1 r2 IH2|g lo hi r IH|g r IH|r IH|];
    intros R st cs k x H; simpl in H.
  - exists st, cs. split; [constructor|done].
  - destruct st as [i s]. simpl in H. destruct s as [|c s]; [discriminate|].
    destruct (p c) eqn:E; [|discriminate].
    eexists _, _. split; [by constructor|done].
  - apply IH1 in H as (st1 & cs1 & H1 & H).
    apply IH2 in H as (st2 & cs2 & H2 & H).
    exists st2, cs2. split; [econstructor; eauto|done].
  - destruct (run r1 st cs k) eqn:E.
    + inversion H; subst. apply IH1 in E as (st' & cs' & H1 & E).
      exists st', cs'. split; [by apply M_alt_l|done].
    + apply IH2 in H as (st' & cs' & H2 & H).
      exists st', cs'. split; [by apply M_alt_r|done].
  - apply (rep_loop_sound (run r) r (IH R)) in H as (st' & cs' & Hm & H).
    rewrite Nat.sub_0_r, shift_zero in Hm. by exists st', cs'.
  - apply IH in H as (st' & cs' & Hm & H).
    eexists _, _. split; [by constructor|done].
  - destruct (run r st cs _) as [cs1|] eqn:E; [|discriminate].
    apply IH in E as (st' & cs' & Hm & E). inversion E; subst.
    exists st, cs1. split; [by econstructor|done].
  - destruct (pos st =? 0) eqn:E; [|discriminate].
    apply Nat.eqb_eq in E. exists st, cs. split; [by constructor|done].
Qed.

Lemma span_refl st : span st st [].
Proof. split; simpl; [done|lia]. Qed.

Lemma span_trans st1 st2 st3 w1 w2 :
  span st1 st2 w1 -> span st2 st3 w2 -> span st1 st3 (w1 ++ w2).
Proof.
  intros [H1 P1] [H2 P2]. split.
  - rewrite H1, H2. by rewrite <- app_assoc.
  - rewrite length_app. lia.
Qed.

Lemma span_consumed st st' w : span st st' w -> consumed st st' = w.
Proof.
  intros [H P]. unfold consumed. rewrite H, P.
  replace (pos st + length w - pos st) with (length w) by lia.
  by rewrite take_app_length.
Qed.

Lemma span_bound st st' w :
  span st st' w -> pos st' = pos st + length w /\ length w <= length (rest st).
Proof.
  intros [H P]. split; [done|]. rewrite H, length_app. lia.
Qed.

Lemma matches_span r st cs st' cs' :
  matches r st cs st' cs' -> exists w, span st st' w.
Proof.
  induction 1 as [| | ? ? ? ? ? ? ? ? _ [w1 H1] _ [w2 H2] | | | |
                  ? ? ? ? ? ? ? ? ? ? _ _ [w1 H1] _ _ [w2 H2] | | |].
  - exists []. apply span_refl.
  - exists [c]. split; simpl; [done|lia].
  - exists (w1 ++ w2). by eapply span_trans.
  - done.
  - done.
  - exists []. apply span_refl.
  - exists (w1 ++ w2). by eapply span_trans.
  - done.
  - exists []. apply span_refl.
  - exists []. apply span_refl.
Qed.

(** A repetition of a character class takes a run of characters of the
    class and leaves the groups alone. *)
Lemma matches_rep_cls g p lo hi st cs st' cs' :
  matches (Rep g lo hi (Cls p)) st cs st' cs' ->
  cs' = cs /\
  exists w, span st st' w /\ Forall (fun c => p c = true) w /\ lo <= length w.
Proof.
  intros H. remember (Rep g lo hi (Cls p)) as r eqn:Er.
  revert lo hi Er.
  induction H as [| | | | | g' hi' r' st cs |
                  g' lo' hi' r' st cs st1 cs1 st2 cs2 Hb H1 _ Hlt H2 IH2
                  | | |];
    intros lo hi Er; try discriminate.
  - inversion Er; subst. split; [done|].
    exists []. split; [apply span_refl|]. split; [constructor|simpl; lia].
  - inversion Er; subst. clear Er.
    destruct (IH2 _ _ eq_refl) as (-> & w & Hs & Hall & Hlen).
    inversion H1; subst.
    split; [done|]. exists (c :: w). split; [|split].
    + apply (span_trans _ (Cursor (S i) s) _ [c] w); [|done].
      split; simpl; [done|lia].
    + by constructor.
    + simpl. lia.
Qed.

Lemma attempt_found r b st mo :
  attempt r b st = Some mo ->
  found r st mo /\ (b = true -> m_end mo <> pos st).
Proof.
  unfold attempt. intros H.
  apply run_sound in H as (st' & cs' & Hm & H).
  destruct (b && (pos st' =? pos st)) eqn:E; [discriminate|].
  inversion H; subst; simpl. clear H.
  destruct (matches_span _ _ _ _ _ Hm) as [w Hw].
  split.
  - exists st', w. simpl. by rewrite (span_consumed _ _ _ Hw).
  - intros ->. simpl in E. by apply Nat.eqb_neq in E.
Qed.

Lemma found_bounds r st mo :
  found r st mo ->
  m_start mo = pos st /\ pos st <= m_end mo <= pos st + length (rest st).
Proof.
  intros (st' & w & _ & Hs & H1 & H2 & _).
  apply span_bound in Hs as [Hp Hl]. lia.
Qed.

Lemma pieces_found r s : forall at_ skip,
  Forall (hit_found r) (pieces r at_ skip s).
Proof.
  induction s as [|c s IH]; intros at_ skip.
  - destruct skip; simpl; [|constructor].
    destruct (attempt r false _) as [mo|] eqn:E; [|constructor].
    apply attempt_found in E as [E _].
    destruct (m_end mo =? at_).
    + destruct (attempt r true _) as [mo'|] eqn:E'.
      * apply attempt_found in E' as [E' _].
        repeat constructor; simpl; eauto.
      * repeat constructor; simpl; eauto.
    + repeat constructor; simpl; eauto.
  - destruct skip; simpl; [|apply IH].
    destruct (attempt r false _) as [mo|] eqn:E.
    + apply attempt_found in E as [E _].
      destruct (m_end mo =? at_).
      * destruct (attempt r true _) as [mo'|] eqn:E'.
        -- apply attempt_found in E' as [E' _].
           repeat constructor; simpl; eauto.
        -- repeat constructor; simpl; eauto.
      * repeat constructor; simpl; eauto.
    + constructor; [done|apply IH].
Qed.

Lemma finditer_found r s :
  Forall (fun mo => exists st, found r st mo) (finditer r s).
Proof.
  unfold finditer, hits.
  pose proof (pieces_found r s 0 0) as H.
  induction H as [|p ps Hp _ IH]; simpl; [constructor|].
  destruct p as [c|mo]; simpl; [exact IH|].
  constructor; [exact Hp|exact IH].
Qed.

(** Every match of the scan is the result of an attempt at its start, on
    the subject from there on. *)
Lemma pieces_attempts r s : forall at_ skip,
  Forall (fun p =>
            match p with
            | Hit mo =>
                at_ <= m_start mo /\
                exists b,
                  attempt r b (Cursor (m_start mo)
                                      (drop (m_start mo - at_) s)) = Some mo
            | Gap _ => True
            end)
         (pieces r at_ skip s).
Proof.
  assert (Hhere : forall at_ b s0 mo,
            attempt r b (Cursor at_ s0) = Some mo ->
            at_ <= m_start mo /\
            exists b', attempt r b' (Cursor (m_start mo)
                                            (drop (m_start mo - at_) s0))
                       = Some mo).
  { intros at_ b s0 mo E.
    destruct (attempt_found _ _ _ _ E) as [(st' & w & _ & _ & Hs & _) _].
    simpl in Hs. rewrite Hs, Nat.sub_diag. split; [done|]. by exists b. }
  induction s as [|c s IH]; intros at_ skip.
  - destruct skip; simpl; [|constructor].
    destruct (attempt r false _) as [mo|] eqn:E; [|constructor].
    apply Hhere in E.
    destruct (m_end mo =? at_); [|constructor; [exact E|constructor]].
    destruct (attempt r true _) as [mo'|] eqn:E';
      [|constructor; [exact E|constructor]].
    apply Hhere in E'.
    constructor; [exact E|]. constructor; [exact E'|constructor].
  - assert (Hnext : forall k,
              Forall (fun p =>
                        match p with
                        | Hit mo =>
                            at_ <= m_start mo /\
                            exists b,
                              attempt r b
                                (Cursor (m_start mo)
                                        (drop (m_start mo - at_) (c :: s)))
                              = Some mo
                        | Gap _ => True
                        end)
                     (pieces r (S at_) k s)).
    { intros k. eapply Forall_impl; [apply IH|].
      intros [?|mo]; [done|]. intros [Hle [b Hb]]. split; [lia|].
      exists b. replace (m_start mo - at_) with (S (m_start mo - S at_))
        by lia. exact Hb. }
    destruct skip; simpl; [|apply Hnext].
    destruct (attempt r false _) as [mo|] eqn:E.
    + apply Hhere in E.
      destruct (m_end mo =? at_).
      * destruct (attempt r true _) as [mo'|] eqn:E'.
        -- apply Hhere in E'. repeat (constructor; [done|]). apply Hnext.
        -- repeat (constructor; [done|]). apply Hnext.
      * constructor; [done|]. apply Hnext.
    + constructor; [done|]. apply Hnext.
Qed.

Lemma finditer_attempts r s :
  Forall (fun mo =>
            exists b,
              attempt r b (Cursor (m_start mo) (drop (m_start mo) s))
              = Some mo)
         (finditer r s).
Proof.
  unfold finditer, hits.
  pose proof (pieces_attempts r s 0 0) as H.
  induction H as [|p ps Hp _ IH]; simpl; [constructor|].
  destruct p as [c|mo]; simpl; [exact IH|].
  constructor; [|exact IH].
  destruct Hp as [_ [b Hb]]. exists b. by rewrite Nat.sub_0_r in Hb.
Qed.

Lemma run_cat {R} r1 r2 st cs (k : cursor -> caps -> option R) :
  run (Cat r1 r2) st cs k = run r1 st cs (fun st' cs' => run r2 st' cs' k).
Proof. reflexivity. Qed.

Lemma run_grp {R} g r st cs (k : cursor -> caps -> option R) :
  run (Grp g r) st cs k =
  run r st cs (fun st' cs' => k st' (<[g := consumed st st']> cs')).
Proof. reflexivity. Qed.

Lemma run_rep {R} g lo hi r st cs (k : cursor -> caps -> option R) :
  run (Rep g lo hi r) st cs k =
  rep_loop (run r) g lo hi k (length (rest st)) 0 st cs.
Proof. reflexivity. Qed.

Lemma run_cls {R} p st cs (k : cursor -> caps -> option R) :
  run (Cls p) st cs k =
  match rest st with
  | c :: s' => if p c then k (Cursor (S (pos st)) s') cs else None
  | [] => None
  end.
Proof. reflexivity. Qed.

Section Greedy.
Context {R : Type}.
Variable p : N -> bool.
Variable step : cursor -> caps -> (cursor -> caps -> option R) -> option R.
Hypothesis step_cls : forall st cs k, step st cs k = run (Cls p) st cs k.
Variable lo : nat.
Variable k : cursor -> caps -> option R.

Lemma rep_loop_accepts fuel cnt st cs :
  is_Some (k st cs) -> lo <= cnt ->
  is_Some (rep_loop step true lo None k fuel cnt st cs).
Proof.
  intros [y Hy] Hlo. apply Nat.leb_le in Hlo.
  destruct fuel; cbn [rep_loop below]; rewrite Hlo, Hy; [by eexists|].
  destruct (step st cs _); by eexists.
Qed.

(** A greedy repetition of a character class before a continuation that
    accepts every cursor takes the whole run of characters of the class:
    it stops at the end of the subject or before a character that is not
    of the class. *)
Lemma rep_cls_greedy fuel : forall cnt st cs x,
  (forall st' cs', pos st <= pos st' -> is_Some (k st' cs')) ->
  length (rest st) <= fuel ->
  rep_loop step true lo None k fuel cnt st cs = Some x ->
  exists st' w,
    span st st' w /\ Forall (fun c => p c = true) w /\
    k st' cs = Some x /\
    match rest st' with
    | [] => True
    | c :: _ => p c = false
    end.
Proof.
  induction fuel as [|fuel IH]; intros cnt [i s] cs x Hk Hfuel H;
    simpl in Hfuel.
  - destruct s; [|simpl in Hfuel; lia]. simpl in H.
    destruct (lo <=? cnt); [|discriminate].
    exists (Cursor i []), []. repeat split; [simpl; lia|done..].
  - cbn [rep_loop below] in H. rewrite step_cls, run_cls in H.
    cbn [rest pos] in H.
    destruct s as [|c s].
    + destruct (lo <=? cnt); [|discriminate].
      exists (Cursor i []), []. repeat split; [simpl; lia|done..].
    + destruct (p c) eqn:Hc.
      * assert (Hlt : (i <? S i) = true) by (apply Nat.ltb_lt; lia).
        rewrite Hlt in H.
        assert (Hk' : forall st' cs',
                  pos (Cursor (S i) s) <= pos st' -> is_Some (k st' cs')).
        { intros st' cs' Hle. apply Hk. simpl in *. lia. }
        destruct (rep_loop step true lo None k fuel (S cnt)
                           (Cursor (S i) s) cs) as [y|] eqn:Hmore.
        -- injection H as ->.
           apply IH in Hmore as (st' & w & Hs & Hw & Hx & Hend);
             [|exact Hk'|simpl in *; lia].
           exists st', (c :: w).
           split; [|split; [by constructor|by split]].
           apply (span_trans _ (Cursor (S i) s) _ [c] w); [|done].
           split; simpl; [done|lia].
        -- destruct (lo <=? cnt) eqn:Hlo; [|discriminate].
           apply Nat.leb_le in Hlo. exfalso.
           destruct (rep_loop_accepts fuel (S cnt) (Cursor (S i) s) cs)
             as [y Hy]; [by apply Hk'|lia|congruence].
      * destruct (lo <=? cnt); [|discriminate].
        exists (Cursor i (c :: s)), []. repeat split; [simpl; lia|done..].
Qed.

End Greedy.

Lemma pieces_width r s : forall at_ skip,
  skip <= length s ->
  sum_list (map width (pieces r at_ skip s)) = length s - skip.
Proof.
  induction s as [|c s IH]; intros at_ skip Hskip.
  - simpl in Hskip. assert (skip = 0) as -> by lia. simpl.
    destruct (attempt r false _) as [mo|] eqn:E; [|done].
    apply attempt_found in E as [E _]. apply found_bounds in E. simpl in E.
    destruct (m_end mo =? at_).
    + destruct (attempt r true _) as [mo'|] eqn:E'.
      * apply attempt_found in E' as [E' Hne].
        apply found_bounds in E'. simpl in E'.
        specialize (Hne eq_refl). simpl in Hne. lia.
      * simpl. lia.
    + simpl. lia.
  - destruct skip as [|skip]; simpl.
    + destruct (attempt r false _) as [mo|] eqn:E.
      * apply attempt_found in E as [E _]. apply found_bounds in E.
        simpl in E.
        destruct (m_end mo =? at_) eqn:Ee.
        -- apply Nat.eqb_eq in Ee.
           destruct (attempt r true _) as [mo'|] eqn:E'.
           ++ apply attempt_found in E' as [E' Hne].
              apply found_bounds in E'. simpl in E'.
              specialize (Hne eq_refl). simpl in Hne.
              simpl. rewrite IH by lia. lia.
           ++ simpl. rewrite IH by lia. lia.
        -- apply Nat.eqb_neq in Ee. simpl. rewrite IH by lia. lia.
      * simpl. rewrite IH by lia. lia.
    + simpl in Hskip. rewrite IH by lia. lia.
Qed.

(** [sub] does not lengthen a text when every match is at least as long as
    its replacement. *)
Lemma sub_length r repl s :
  (forall st mo, found r st mo -> length repl <= m_end mo - m_start mo) ->
  length (sub r repl s) <= length s.
Proof.
  intros Hw. unfold sub.
  rewrite <- (Nat.sub_0_r (length s)), <- (pieces_width r s 0 0) by lia.
  pose proof (pieces_found r s 0 0) as H.
  induction H as [|p ps Hp _ IH]; simpl; [lia|].
  rewrite length_app.
  destruct p as [c|mo]; simpl in *; [lia|].
  destruct Hp as [st Hp]. specialize (Hw _ _ Hp). lia.
Qed.

Ltac invert_cat H H1 H2 :=
  match type of H with
  | matches (Cat _ _) _ _ _ _ =>
      inversion H as [| |? ? ? ? ? ? ? ? H1 H2| | | | | | |]; subst; clear H
  end.

Ltac invert_grp H H1 :=
  match type of H with
  | matches (Grp _ _) _ _ _ _ =>
      inversion H as [| | | | | | |? ? ? ? ? ? H1| |]; subst; clear H
  end.

Lemma span_unique st st' w w' : span st st' w -> span st st' w' -> w = w'.
Proof.
  intros H H'. by rewrite <- (span_consumed _ _ _ H), (span_consumed _ _ _ H').
Qed.

Lemma matches_pos r st cs st' cs' :
  matches r st cs st' cs' -> pos st <= pos st'.
Proof. intros [w [_ H]]%matches_span. lia. Qed.

Lemma found_width r st mo :
  found r st mo ->
  exists st', matches r st ∅ st' (m_groups mo)
              /\ m_end mo - m_start mo = pos st' - pos st.
Proof.
  intros (st' & w & Hm & _ & -> & -> & _). by exists st'.
Qed.

(** The characters of a substituted text are those of the subject and of
    the replacement. *)
Lemma pieces_gaps (P : N -> Prop) r s : forall at_ skip,
  Forall P s ->
  Forall (fun p => match p with Gap c => P c | Hit _ => True end)
         (pieces r at_ skip s).
Proof.
  induction s as [|c s IH]; intros at_ skip Hs.
  - destruct skip; simpl; [|constructor].
    destruct (attempt r false _) as [mo|]; [|constructor].
    destruct (m_end mo =? at_); [|by repeat constructor].
    destruct (attempt r true _); by repeat constructor.
  - inversion Hs as [|? ? Hc Hs']; subst.
    destruct skip; simpl; [|by apply IH].
    destruct (attempt r false _) as [mo|].
    + destruct (m_end mo =? at_).
      * destruct (attempt r true _); repeat constructor; auto.
      * constructor; [done|]. by apply IH.
    + constructor; [done|]. by apply IH.
Qed.

Lemma sub_Forall (P : N -> Prop) r repl s :
  Forall P repl -> Forall P s -> Forall P (sub r repl s).
Proof.
  intros Hr Hs. unfold sub.
  pose proof (pieces_gaps P r s 0 0 Hs) as H.
  induction H as [|p ps Hp _ IH]; simpl; [constructor|].
  apply Forall_app. split; [|exact IH].
  destruct p; [by constructor|exact Hr].
Qed.

End ReFacts.

Module StrFacts.
Import Str.

Lemma lstrip_suffix s : exists w, s = w ++ lstrip s.
Proof.
  induction s as [|c s [w IH]]; simpl.
  - by exists [].
  - destruct (isspace c).
    + exists (c :: w). simpl. by f_equal.
    + by exists [].
Qed.

Lemma lstrip_Forall (P : N -> Prop) s : Forall P s -> Forall P (lstrip s).
Proof.
  destruct (lstrip_suffix s) as [w H]. intros HP. rewrite H in HP.
  by apply Forall_app in HP as [_ HP].
Qed.

Lemma lstrip_length s : length (lstrip s) <= length s.
Proof.
  destruct (lstrip_suffix s) as [w H]. rewrite H at 2.
  rewrite length_app. lia.
Qed.

Lemma rstrip_Forall (P : N -> Prop) s : Forall P s -> Forall P (rstrip s).
Proof.
  intros HP. unfold rstrip.
  apply Forall_rev, lstrip_Forall, Forall_rev, HP.
Qed.

Lemma rstrip_length s : length (rstrip s) <= length s.
Proof.
  unfold rstrip. rewrite length_rev.
  etransitivity; [apply lstrip_length|]. by rewrite length_rev.
Qed.

Lemma strip_Forall (P : N -> Prop) s : Forall P s -> Forall P (strip s).
Proof. intros HP. by apply rstrip_Forall, lstrip_Forall. Qed.

Lemma strip_length s : length (strip s) <= length s.
Proof.
  unfold strip. etransitivity; [apply rstrip_length|apply lstrip_length].
Qed.

Lemma lstrip_head s :
  lstrip s = [] \/ exists c s', lstrip s = c :: s' /\ isspace c = false.
Proof.
  induction s as [|c s IH]; simpl; [by left|].
  destruct (isspace c) eqn:E; [exact IH|].
  right. by exists c, s.
Qed.

Lemma lstrip_snoc s c :
  isspace c = false -> lstrip (s ++ [c]) = lstrip s ++ [c].
Proof.
  intros Hc. induction s as [|d s IH]; simpl.
  - by rewrite Hc.
  - destruct (isspace d); [exact IH|done].
Qed.

Lemma lstrip_fixed c s : isspace c = false -> lstrip (c :: s) = c :: s.
Proof. intros Hc. simpl. by rewrite Hc. Qed.

Lemma rstrip_cons c s :
  isspace c = false -> rstrip (c :: s) = c :: rstrip s.
Proof.
  intros Hc. unfold rstrip. simpl.
  rewrite lstrip_snoc by done. by rewrite rev_app_distr.
Qed.

Lemma rstrip_idem s : rstrip (rstrip s) = rstrip s.
Proof.
  unfold rstrip. rewrite rev_involutive.
  destruct (lstrip_head (rev s)) as [->|(c & s' & -> & Hc)]; [done|].
  by rewrite lstrip_fixed.
Qed.

(** Stripping a stripped string changes nothing. *)
Lemma strip_idem s : strip (strip s) = strip s.
Proof.
  unfold strip.
  destruct (lstrip_head s) as [->|(c & s' & -> & Hc)]; [done|].
  rewrite rstrip_cons by done. rewrite lstrip_fixed by done.
  rewrite rstrip_cons by done. by rewrite rstrip_idem.
Qed.

Lemma replace_idem a b s : replace a b (replace a b s) = replace a b s.
Proof.
  unfold replace. rewrite map_map. apply map_ext. intros c.
  destruct (N.eqb_spec c a) as [->|Hc].
  - destruct (N.eqb_spec b a); done.
  - destruct (N.eqb_spec c a); done.
Qed.

Lemma replace_absent a b s : a <> b -> a ∉ replace a b s.
Proof.
  intros Hab. unfold replace. induction s as [|c s IH]; simpl.
  - apply not_elem_of_nil.
  - apply not_elem_of_cons. split; [|exact IH].
    destruct (N.eqb_spec c a); congruence.
Qed.

Lemma replace_fixed a b s : a ∉ s -> replace a b s = s.
Proof.
  unfold replace. induction s as [|c s IH]; simpl; [done|].
  intros [Hc Hs]%not_elem_of_cons.
  destruct (N.eqb_spec c a); [congruence|]. by rewrite IH.
Qed.

Lemma startswith_spec p s :
  startswith p s = true <-> exists post, s = p ++ post.
Proof.
  revert s. induction p as [|c p IH]; intros s; simpl.
  - split; [by exists s|done].
  - destruct s as [|d s].
    + split; [done|]. by intros [post H].
    + rewrite andb_true_iff, N.eqb_eq, IH. split.
      * intros [-> [post ->]]. by exists post.
      * intros [post H]. inversion H; subst. split; [done|by exists post].
Qed.

(** [p in s] holds exactly when [s] is some text, [p], and some text. *)
Lemma contains_spec p s :
  contains p s = true <-> exists pre post, s = pre ++ p ++ post.
Proof.
  induction s as [|d s IH].
  - simpl. rewrite orb_false_r, startswith_spec. split.
    + intros [post H]. by exists [], post.
    + intros (pre & post & H). symmetry in H.
      apply app_eq_nil in H as [-> H]. by exists post.
  - simpl. rewrite orb_true_iff, startswith_spec, IH. split.
    + intros [[post H]|(pre & post & H)].
      * by exists [], post.
      * exists (d :: pre), post. simpl. by f_equal.
    + intros (pre & post & H). destruct pre as [|e pre].
      * left. by exists post.
      * right. inversion H; subst. by exists pre, post.
Qed.

Lemma contains_empty s : contains [] s = true.
Proof. apply contains_spec. by exists [], s. Qed.

End StrFacts.

Module PricesFacts.
Import Str Re Eff Prices Samples ReFacts StrFacts.

(** The price group of a match of [price_re] starts with a digit. *)
Lemma price_group st pm :
  found price_re st pm ->
  exists d w, group "price" pm = d :: w /\ isdecimal d = true.
Proof.
  intros (st' & w0 & Hm & _). unfold group. revert Hm.
  generalize (m_groups pm). intros cs Hm.
  unfold price_re in Hm. simpl in Hm.
  invert_cat Hm Heuro Hm1. invert_cat Hm1 Hws Hm2. invert_grp Hm2 Hm3.
  invert_cat Hm3 Hdigits Hm4.
  apply matches_rep_cls in Hdigits as (_ & w1 & Hs1 & Hd & Hlen).
  apply matches_span in Hm4 as [w2 Hs2].
  rewrite lookup_insert_eq. simpl.
  rewrite (span_consumed _ _ _ (span_trans _ _ _ _ _ Hs1 Hs2)).
  destruct w1 as [|d w1]; [simpl in Hlen; lia|].
  exists d, (w1 ++ w2). split; [done|].
  by inversion Hd.
Qed.

(** A match of [id_name_re] ends with a bar, whitespace and the name
    group, which is a non-empty run without terminators. *)
Lemma name_group st mo :
  found id_name_re st mo ->
  group "name" mo <> [] /\
  Forall (fun c => ~ terminator c) (group "name" mo) /\
  exists before gap,
    m_text mo = before ++ bar :: gap ++ group "name" mo /\
    Forall (fun c => isspace c = true) gap.
Proof.
  intros (st' & w0 & Hm & Hs0 & _ & _ & ->). unfold group. revert Hm.
  generalize (m_groups mo). intros cs Hm.
  unfold id_name_re in Hm. simpl in Hm.
  invert_cat Hm Hid Hm1. invert_cat Hm1 Hws Hm2. invert_cat Hm2 Hbar Hm3.
  invert_cat Hm3 Hws' Hm4. invert_grp Hm4 Hm5.
  apply matches_rep_cls in Hm5 as (_ & w & Hs & Hw & Hlen).
  apply matches_rep_cls in Hws' as (_ & gap & Hsg & Hgap & _).
  apply matches_span in Hid as [w1 Hs1]. apply matches_span in Hws as [w2 Hs2].
  assert (Hsb : exists st3', span st3' st3 [bar] /\ span st1 st3' w2).
  { inversion Hbar as [|? ? c ? ? Hc| | | | | | | |]; subst.
    apply N.eqb_eq in Hc as <-.
    eexists. split; [|exact Hs2]. split; simpl; [done|lia]. }
  destruct Hsb as (st3' & Hsb & Hs2').
  rewrite lookup_insert_eq. simpl. rewrite (span_consumed _ _ _ Hs).
  split; [destruct w; [simpl in Hlen; lia|done]|]. split.
  - eapply Forall_impl; [exact Hw|].
    intros c Hc [-> | ->]; vm_compute in Hc; discriminate.
  - exists (w1 ++ w2), gap. split; [|done].
    pose proof (span_trans _ _ _ _ _
                  (span_trans _ _ _ _ _ (span_trans _ _ _ _ _ Hs1 Hs2') Hsb)
                  (span_trans _ _ _ _ _ Hsg Hs)) as Hall.
    rewrite (span_unique _ _ _ _ Hs0 Hall).
    by rewrite <- !app_assoc.
Qed.

Lemma not_name_char c :
  negb (existsb (N.eqb c) [newline; euro]) = false -> terminator c.
Proof.
  intros H. apply negb_false_iff in H. cbn [existsb] in H.
  rewrite !orb_true_iff, !N.eqb_eq in H. unfold terminator.
  destruct H as [H|[H|H]]; [by left|by right|].
  discriminate.
Qed.

(** The name group of a match runs up to the end of the subject or to a
    terminator. *)
Lemma name_ends b st mo :
  attempt id_name_re b st = Some mo ->
  match drop (m_end mo - pos st) (rest st) with
  | [] => True
  | c :: _ => terminator c
  end.
Proof.
  unfold attempt, id_name_re. cbn [cat]. intros H.
  rewrite run_cat in H. apply run_sound in H as (st1 & cs1 & Hid & H).
  rewrite run_cat in H. apply run_sound in H as (st2 & cs2 & Hws & H).
  rewrite run_cat in H. apply run_sound in H as (st3 & cs3 & Hbar & H).
  rewrite run_cat in H. apply run_sound in H as (st4 & cs4 & Hws' & H).
  rewrite run_grp in H. unfold plus, none_of in H. rewrite run_rep in H.
  assert (Hpos : pos st < pos st4).
  { invert_grp Hid Hid1. invert_cat Hid1 Hal Hid2.
    apply matches_rep_cls in Hal as (_ & w & [_ Hp] & _ & Hlen).
    apply matches_pos in Hid2, Hws, Hbar, Hws'. lia. }
  apply (rep_cls_greedy _ _ (fun _ _ _ => eq_refl)) in H
    as (st' & w & Hs & _ & Hk & Hend); [| |done].
  - destruct (b && (pos st' =? pos st)); [discriminate|].
    injection Hk as <-. cbn [m_end].
    apply matches_span in Hid as [w1 Hs1].
    apply matches_span in Hws as [w2 Hs2].
    apply matches_span in Hbar as [w3 Hs3].
    apply matches_span in Hws' as [w4 Hs4].
    destruct (span_trans _ _ _ _ _
                (span_trans _ _ _ _ _
                   (span_trans _ _ _ _ _ (span_trans _ _ _ _ _ Hs1 Hs2) Hs3)
                   Hs4) Hs) as [Hrest Hp].
    rewrite Hrest, Hp.
    replace (pos st + _ - pos st)
      with (length ((((w1 ++ w2) ++ w3) ++ w4) ++ w)) by lia.
    rewrite drop_app_length.
    destruct (rest st') as [|c s']; [done|]. by apply not_name_char.
  - intros st'' cs'' Hle.
    destruct (Nat.eqb_spec (pos st'') (pos st)) as [Heq|_]; [lia|].
    rewrite andb_false_r. by eexists.
Qed.

Lemma spaces_width st mo : found spaces_re st mo -> 1 <= m_end mo - m_start mo.
Proof.
  intros (st' & Hm & ->)%found_width.
  apply matches_rep_cls in Hm as (_ & w & [_ Hp] & _ & Hlen). lia.
Qed.

Lemma newline_width st mo :
  found newline_re st mo -> 1 <= m_end mo - m_start mo.
Proof.
  intros (st' & Hm & ->)%found_width.
  unfold newline_re in Hm. simpl in Hm.
  invert_cat Hm Hws Hm1. invert_cat Hm1 Hnl Hm2.
  apply matches_pos in Hws, Hm2. inversion Hnl; subst. simpl in *. lia.
Qed.

Lemma clean_product_name_length name :
  length (clean_product_name name) <= length name.
Proof.
  unfold clean_product_name.
  etransitivity; [apply strip_length|].
  etransitivity; [apply sub_length|].
  - intros st mo H. apply newline_width in H. simpl. lia.
  - apply sub_length. intros st mo H. apply spaces_width in H. simpl. lia.
Qed.

Lemma clean_product_name_Forall (P : N -> Prop) name :
  P space -> Forall P name -> Forall P (clean_product_name name).
Proof.
  intros Hsp Hn. unfold clean_product_name.
  apply strip_Forall, sub_Forall; [by constructor|].
  apply sub_Forall; [by constructor|done].
Qed.

Lemma page_products_lookup page_num text i :
  page_products page_num text !! i =
  (fun id_match =>
     let price := price_at (finditer price_re text) i in
     Product page_num (group "id" id_match) (strip (group "name" id_match))
             (if eqb price not_found then price else euro :: price))
  <$> finditer id_name_re text !! i.
Proof. unfold page_products. by rewrite list_lookup_imap. Qed.

Lemma not_found_head : not_found = 78%N :: lit "ot found".
Proof. reflexivity. Qed.

Lemma price_at_found text i pm :
  finditer price_re text !! i = Some pm ->
  eqb (price_at (finditer price_re text) i) not_found = false
  /\ price_at (finditer price_re text) i = replace comma dot (group "price" pm).
Proof.
  intros Hi. unfold price_at. rewrite Hi. split; [|done].
  pose proof (finditer_found price_re text) as Hall.
  rewrite Forall_lookup in Hall. destruct (Hall _ _ Hi) as [st Hf].
  apply price_group in Hf as (d & w & -> & Hd).
  rewrite not_found_head. unfold replace. cbn [map Str.eqb].
  destruct (N.eqb_spec d comma) as [->|_]; [vm_compute in Hd; discriminate|].
  destruct (N.eqb_spec d 78) as [->|_]; [vm_compute in Hd; discriminate|done].
Qed.

Lemma pages_from_texts texts : forall page_num acc,
  pages_from page_num (map Some texts) acc =
  ([], Some (acc ++ concat (imap (fun i text =>
                                    page_products (page_num + i) text)
                                 texts))).
Proof.
  induction texts as [|text texts IH]; intros page_num acc; simpl.
  - unfold ret. by rewrite app_nil_r.
  - rewrite IH, <- app_assoc, Nat.add_0_r. do 5 f_equal.
    apply imap_ext. intros i t _. simpl. f_equal. lia.
Qed.

(** C1: the records of a document are those of its pages, in page order,
    counted from 1.  The records of a page are the identifier matches of
    the page, in match order; the price of the i-th record is the i-th
    price match with its comma replaced by a dot and the currency sign in
    front, and the sentinel "Not found" when there is no i-th price
    match. *)
Theorem index_pairing (page_num : nat) (text : pystr) :
  let id_name_matches := finditer id_name_re text in
  let price_matches := finditer price_re text in
  let records := page_products page_num text in
  (forall pdf_path texts,
     extract_product_data pdf_path (Some (map Some texts)) =
     ([Opened pdf_path],
      Some (concat (imap (fun i text => page_products (S i) text) texts))))
  /\
  length records = length id_name_matches /\
  forall i id_match,
    id_name_matches !! i = Some id_match ->
    exists record,
      records !! i = Some record /\
      Page record = page_num /\
      ID record = group "id" id_match /\
      Name record = strip (group "name" id_match) /\
      (forall pm, price_matches !! i = Some pm ->
                  Price record = euro :: replace comma dot (group "price" pm))
      /\ (length price_matches <= i -> Price record = not_found).
Proof.
  intros ids prices records. split; [|split].
  - intros pdf_path texts. unfold extract_product_data.
    cbn [bind emit app]. by rewrite pages_from_texts.
  - unfold records, page_products. by rewrite length_imap.
  - intros i id_match Hi. eexists. split.
    + unfold records. rewrite page_products_lookup.
      fold ids. rewrite Hi. reflexivity.
    + simpl. repeat split.
      * intros pm Hpm. destruct (price_at_found text i pm Hpm) as [-> ->].
        done.
      * intros Hge. apply lookup_ge_None in Hge.
        unfold price_at. fold prices. by rewrite Hge.
Qed.

(** On the sample page: three records, the second with the second price,
    the third without a price. *)
Lemma index_pairing_witness :
  length (page_products 1 sample_page) = 3 /\
  (exists record,
     page_products 1 sample_page !! 1 = Some record /\
     Price record = euro :: lit "5.5") /\
  (exists record,
     page_products 1 sample_page !! 2 = Some record /\
     Price record = not_found).
Proof.
  destruct (index_pairing 1 sample_page) as (_ & Hlen & H).
  split; [rewrite Hlen; vm_compute; reflexivity|]. split.
  - destruct (finditer id_name_re sample_page !! 1) as [mo|] eqn:E;
      [|vm_compute in E; discriminate].
    destruct (finditer price_re sample_page !! 1) as [pm|] eqn:Ep;
      [|vm_compute in Ep; discriminate].
    destruct (H 1 mo E) as (record & Hr & _ & _ & _ & Hprice & _).
    exists record. split; [exact Hr|].
    rewrite (Hprice pm Ep).
    vm_compute in Ep. injection Ep as <-. vm_compute. reflexivity.
  - destruct (finditer id_name_re sample_page !! 2) as [mo|] eqn:E;
      [|vm_compute in E; discriminate].
    destruct (H 2 mo E) as (record & Hr & _ & _ & _ & _ & Hnone).
    exists record. split; [exact Hr|].
    apply Hnone. vm_compute. lia.
Defined.

(** C3, as stated, fails: the class of the name group leaves out the
    newline and the currency sign only, so a name runs over a comma. *)
Lemma name_runs_over_comma :
  page_products 1 (lit "01.003T | Polo, blau" ++ [euro] ++ lit "9,50") =
  [Product 1 (lit "01.003T") (lit "Polo, blau") (euro :: lit "9.50")]
  /\ comma ∈ lit "Polo, blau".
Proof.
  split; [vm_compute; reflexivity|].
  apply (bool_decide_unpack _). by vm_compute.
Qed.

(** C3, amended: in every match of the identifier and name pattern the
    name group is the run that follows the bar and the whitespace after
    it; the run holds no currency sign and no newline, and it ends where
    the text ends or where one of these two follows.  Nor does the name of
    any record hold one of the two, before and after the name is
    cleaned. *)
Theorem names_without_terminators (page_num : nat) (text : pystr) :
  Forall (fun mo =>
            (exists before gap,
               m_text mo = before ++ bar :: gap ++ group "name" mo /\
               Forall (fun c => isspace c = true) gap) /\
            Forall (fun c => ~ terminator c) (group "name" mo) /\
            match drop (m_end mo) text with
            | [] => True
            | c :: _ => terminator c
            end)
         (finditer id_name_re text) /\
  Forall (fun p =>
            Forall (fun c => ~ terminator c) (Name p) /\
            Forall (fun c => ~ terminator c) (clean_product_name (Name p)))
         (page_products page_num text).
Proof.
  pose proof (finditer_found id_name_re text) as Hall. split.
  - apply Forall_forall. intros mo Hmo.
    rewrite Forall_forall in Hall. destruct (Hall _ Hmo) as [st Hf].
    apply name_group in Hf as (_ & Hf & Hrun).
    split; [done|]. split; [done|].
    pose proof (finditer_attempts id_name_re text) as Hatt.
    rewrite Forall_forall in Hatt. destruct (Hatt _ Hmo) as [b Hb].
    pose proof (attempt_found _ _ _ _ Hb) as [Hbound%found_bounds _].
    apply name_ends in Hb. cbn [pos rest] in *.
    rewrite drop_drop in Hb.
    by replace (m_start mo + (m_end mo - m_start mo)) with (m_end mo)
      in Hb by lia.
  - apply Forall_lookup. intros i p Hp.
    rewrite page_products_lookup in Hp.
    destruct (finditer id_name_re text !! i) as [mo|] eqn:Hi; [|discriminate].
    simpl in Hp. injection Hp as <-. simpl.
    rewrite Forall_lookup in Hall. destruct (Hall _ _ Hi) as [st Hf].
    apply name_group in Hf as (_ & Hf & _).
    assert (Hs : Forall (fun c => ~ terminator c) (strip (group "name" mo)))
      by by apply strip_Forall.
    split; [exact Hs|].
    apply clean_product_name_Forall; [|exact Hs].
    intros [H|H]; discriminate.
Qed.

Lemma page_products_stripped page_num text :
  Forall (fun p => strip (Name p) = Name p) (page_products page_num text).
Proof.
  apply Forall_lookup. intros i p Hp.
  rewrite page_products_lookup in Hp.
  destruct (finditer id_name_re text !! i) as [mo|]; [|discriminate].
  simpl in Hp. injection Hp as <-. simpl. apply strip_idem.
Qed.

Lemma price_without_comma page_num text :
  Forall (fun p => comma ∉ Price p) (page_products page_num text).
Proof.
  apply Forall_lookup. intros i p Hp.
  rewrite page_products_lookup in Hp.
  destruct (finditer id_name_re text !! i) as [mo|]; [|discriminate].
  simpl in Hp. injection Hp as <-. simpl.
  assert (Hprice : comma ∉ price_at (finditer price_re text) i).
  { unfold price_at. destruct (finditer price_re text !! i).
    - by apply replace_absent.
    - apply (bool_decide_unpack _). by vm_compute. }
  destruct (eqb _ not_found); [exact Hprice|].
  apply not_elem_of_cons. split; [done|exact Hprice].
Qed.

(** C5, as stated, fails for the field sub-parser, which keeps the comma
    of the amount it finds. *)
Lemma sub_parser_keeps_comma :
  Info.price <$> Info.parse_product_text sample_chunk 1 = Some (lit "19,99")
  /\ comma ∈ lit "19,99".
Proof.
  split; [vm_compute; reflexivity|].
  apply (bool_decide_unpack _). by vm_compute.
Qed.

Lemma page_products_price page_num text i p :
  page_products page_num text !! i = Some p ->
  match finditer price_re text !! i with
  | Some pm => Price p = euro :: replace comma dot (group "price" pm)
  | None => Price p = not_found
  end.
Proof.
  intros Hp. rewrite page_products_lookup in Hp.
  destruct (finditer id_name_re text !! i) as [mo|]; [|discriminate].
  simpl in Hp. injection Hp as <-. simpl.
  destruct (finditer price_re text !! i) as [pm|] eqn:E.
  - by destruct (price_at_found text i pm E) as [-> ->].
  - unfold price_at. by rewrite E.
Qed.

(** C5, amended: the price of every index-paired record is the currency
    sign before its price match with every comma replaced by a dot, and
    the sentinel when it has no price match, so it is free of commas; the
    replacement sends "19,99" and "19.99" to "19.99" and changes no text
    it has been applied to.  The field sub-parser keeps the first amount
    after a currency sign as it is written. *)
Theorem decimal_normalization :
  replace comma dot (lit "19,99") = lit "19.99" /\
  replace comma dot (lit "19.99") = lit "19.99" /\
  (forall s, replace comma dot (replace comma dot s) = replace comma dot s) /\
  (forall s, comma ∉ replace comma dot s) /\
  (forall page_num text,
     Forall (fun p => comma ∉ Price p) (page_products page_num text)) /\
  (forall page_num text i p,
     page_products page_num text !! i = Some p ->
     match finditer price_re text !! i with
     | Some pm => Price p = euro :: replace comma dot (group "price" pm)
     | None => Price p = not_found
     end) /\
  (forall text_chunk page_num,
     Info.price <$> Info.parse_product_text text_chunk page_num =
     (fun parts =>
        match search Info.price_pattern (strip (snd parts)) with
        | Some mo => group "1" mo
        | None => []
        end) <$> split_once bar text_chunk).
Proof.
  split; [reflexivity|]. split; [reflexivity|].
  split; [apply replace_idem|].
  split; [intros s; by apply replace_absent|].
  split; [apply price_without_comma|].
  split; [apply page_products_price|].
  intros text_chunk page_num. unfold Info.parse_product_text.
  by destruct (split_once bar text_chunk) as [[part0 part1]|].
Qed.

Lemma valid_iff p : valid p = true <-> 3 < length (strip (Name p)).
Proof. unfold valid. apply Nat.ltb_lt. Qed.

(** C6, as stated, fails: a name of four characters with a run of two
    spaces is kept, and is three characters long once it is cleaned. *)
Lemma short_cleaned_name_kept :
  cleaned_products (page_products 1 (lit "1.2|a  b")) =
  [Product 1 (lit "1.2") (lit "a b") not_found]
  /\ length (lit "a b") = 3.
Proof. split; vm_compute; reflexivity. Qed.

(** C6, amended: the valid records are the records whose name is longer
    than three characters once its ends are stripped, before runs of
    whitespace are collapsed, each with its name cleaned; so an extracted
    record whose cleaned name has four characters or more is always kept. *)
Theorem name_length_filter :
  (forall products q,
     q ∈ cleaned_products products <->
     exists p, p ∈ products /\ 3 < length (strip (Name p)) /\
               q = Product (Page p) (ID p) (clean_product_name (Name p))
                           (Price p)) /\
  (forall page_num text,
     Forall (fun p => 4 <= length (clean_product_name (Name p)) ->
                      valid p = true)
            (page_products page_num text)).
Proof.
  split.
  - intros products q. unfold cleaned_products.
    rewrite list_elem_of_In, in_map_iff. split.
    + intros (p & <- & Hp). apply list_elem_of_In in Hp.
      apply list_elem_of_filter in Hp as [Hv Hp].
      apply valid_iff in Hv. by exists p.
    + intros (p & Hp & Hv & ->). exists p. split; [done|].
      apply list_elem_of_In, list_elem_of_filter. split; [|done].
      by apply valid_iff.
  - intros page_num text.
    eapply Forall_impl; [apply page_products_stripped|].
    intros p Hs Hlen. apply valid_iff. rewrite Hs.
    pose proof (clean_product_name_length (Name p)). lia.
Qed.

End PricesFacts.

Module EffFacts.
Import Str Re Eff Samples.

Lemma printed_only_app {row} (t1 t2 : list (event row)) :
  printed_only t1 -> printed_only t2 -> printed_only (t1 ++ t2).
Proof. intros H1 H2. apply Forall_app. by split. Qed.



Lemma print_all_spec {row} (lines : list pystr) :
  print_all (row := row) lines = (map Printed lines, Some tt).
Proof.
  induction lines as [|l lines IH]; simpl; [done|]. by rewrite IH.
Qed.

Lemma printed_only_map {row} (lines : list pystr) :
  printed_only (row := row) (map Printed lines).
Proof.
  induction lines; simpl; constructor; [by eexists|done].
Qed.

(** *** [extract_prices_position.py] *)






(** *** [extract_product_info.py] *)











End EffFacts.

Module ImagesFacts.
Import Str Re Eff Images Samples.

Lemma associated_iff img_rect text_rect :
  associated img_rect text_rect = true <->
  PrimFloat.ltb (y1 img_rect) (y0 text_rect) = true /\
  PrimFloat.ltb (PrimFloat.abs (PrimFloat.sub (x0 text_rect) (x0 img_rect)))
                100%float = true /\
  PrimFloat.ltb (PrimFloat.sub (y0 text_rect) (y1 img_rect)) 50%float = true.
Proof.
  unfold associated, below_image, aligned, close_to.
  rewrite !andb_true_iff. tauto.
Qed.

Lemma matching_text_first pattern img_rect blocks text :
  matching_text pattern img_rect blocks = Some text <->
  exists before blk after,
    blocks = before ++ blk :: after /\
    text = strip (b_text blk) /\
    associated img_rect (b_rect blk) = true /\
    matches_pattern pattern text = true /\
    Forall (passed pattern img_rect) before.
Proof.
  induction blocks as [|b blocks IH]; simpl.
  - split; [discriminate|].
    intros (before & blk & after & H & _). by destruct before.
  - destruct (associated img_rect (b_rect b)
              && matches_pattern pattern (strip (b_text b))) eqn:E.
    + split.
      * intros [= <-]. apply andb_true_iff in E as [E1 E2].
        exists [], b, blocks. repeat split; [done..|constructor].
      * intros (before & blk & after & H & -> & Ha & Hm & Hpre).
        destruct before as [|b' before]; simpl in H; inversion H; subst.
        -- done.
        -- apply Forall_cons in Hpre as [Hb _]. unfold passed in Hb.
           congruence.
    + rewrite IH. split.
      * intros (before & blk & after & -> & Ht & Ha & Hm & Hpre).
        exists (b :: before), blk, after. repeat split; [done..|].
        by constructor.
      * intros (before & blk & after & H & Ht & Ha & Hm & Hpre).
        destruct before as [|b' before]; simpl in H; inversion H; subst.
        -- rewrite Ha, Hm in E. discriminate.
        -- apply Forall_cons in Hpre as [_ Hpre].
           by exists before, blk, after.
Qed.

Lemma no_csv_nil : no_csv [].
Proof. intros ? ? ?. apply not_elem_of_nil. Qed.

Lemma no_csv_cons e t :
  (forall path fields rows, e <> WroteCsv path fields rows) ->
  no_csv t -> no_csv (e :: t).
Proof.
  intros He Ht path fields rows Hin.
  apply elem_of_cons in Hin as [<-|Hin]; [by eapply He|by eapply Ht].
Qed.

Lemma no_csv_app t1 t2 : no_csv t1 -> no_csv t2 -> no_csv (t1 ++ t2).
Proof.
  intros H1 H2 path fields rows Hin.
  apply elem_of_app in Hin as [Hin|Hin]; [by eapply H1|by eapply H2].
Qed.

Lemma make_row_text page_num img_index pix text :
  r_full_text (make_row page_num img_index pix text) = text.
Proof.
  unfold make_row. by destruct (split_once bar text) as [[part0 part1]|].
Qed.

(** What the body of the image loop can do: it ends in the exception of
    [get_image_rects], having done nothing, or it returns; it writes no
    CSV file, and a row it yields is the row of an image that is not
    small, with the text of the first associated block that matches. *)
Lemma process_image_spec output_folder pattern min_size blocks
    page_num img_index img :
  exists t res,
    process_image output_folder pattern min_size blocks page_num img_index
                  img = (t, res) /\
    no_csv t /\
    match res with
    | None => image_rects img = None /\ t = []
    | Some None =>
        is_Some (image_rects img) /\ forall path, SavedImage path ∉ t
    | Some (Some data) =>
        exists img_rect rects pix,
          image_rects img = Some (img_rect :: rects) /\
          decoded img = Ok pix /\
          min_size <= width pix /\ min_size <= height pix /\
          matching_text pattern img_rect blocks = Some (r_full_text data) /\
          data = make_row page_num img_index pix (r_full_text data)
    end.
Proof.
  unfold process_image.
  destruct (image_rects img) as [[|img_rect rects]|] eqn:Hrects.
  3:{ exists [], None. split; [done|]. split; [apply no_csv_nil|done]. }
  { exists [], (Some None). split; [done|]. split; [apply no_csv_nil|].
    split; [done|]. intros path. apply not_elem_of_nil. }
  destruct (matching_text pattern img_rect blocks) as [text|] eqn:Htext.
  2:{ exists [], (Some None). split; [done|]. split; [apply no_csv_nil|].
      split; [done|]. intros path. apply not_elem_of_nil. }
  assert (Hskip2 : forall line line' : pystr,
    no_csv [Printed line; Printed line'] /\
    is_Some (Some (img_rect :: rects)) /\
    forall path : string,
      SavedImage path ∉ ([Printed line; Printed line'] : list (event row))).
  { intros line line'. split; [|split; [done|]].
    - repeat (apply no_csv_cons; [discriminate|]). apply no_csv_nil.
    - intros path Hin.
      repeat (apply elem_of_cons in Hin as [Hin|Hin]; [discriminate|]).
      by apply elem_of_nil in Hin. }
  cbn [bind emit ret app].
  destruct (decoded img) as [pix|msg] eqn:Hdec.
  2:{ eexists _, (Some None). split; [reflexivity|]. apply Hskip2. }
  destruct (colorspace pix) as [n|] eqn:Hcs.
  2:{ eexists _, (Some None). split; [reflexivity|]. apply Hskip2. }
  destruct (if (n =? 1) || (n =? 3) then Ok tt else to_rgb pix) as [[]|msg].
  2:{ eexists _, (Some None). split; [reflexivity|]. apply Hskip2. }
  destruct ((width pix <? min_size) || (height pix <? min_size)) eqn:Hsize.
  { eexists _, (Some None). split; [reflexivity|]. apply Hskip2. }
  apply orb_false_iff in Hsize as [Hw Hh].
  apply Nat.ltb_ge in Hw, Hh.
  eexists _, (Some (Some _)). split; [reflexivity|]. split.
  - repeat (apply no_csv_cons; [discriminate|]). apply no_csv_nil.
  - exists img_rect, rects, pix. simpl. by rewrite make_row_text, Htext.
Qed.

Lemma make_row_big min_size page_num img_index pix text :
  min_size <= width pix -> min_size <= height pix ->
  big min_size (make_row page_num img_index pix text).
Proof.
  intros Hw Hh. unfold big, make_row.
  by destruct (split_once bar text) as [[part0 part1]|].
Qed.

Lemma image_loop_spec output_folder pattern min_size blocks page_num imgs :
  forall img_index acc,
  exists t res,
    images_loop output_folder pattern min_size blocks page_num img_index
                imgs acc = (t, res) /\
    no_csv t /\ adds_big min_size acc res.
Proof.
  induction imgs as [|img imgs IH]; intros img_index acc.
  - exists [], (Some acc). split; [done|]. split; [apply no_csv_nil|].
    exists []. by rewrite app_nil_r.
  - destruct (process_image_spec output_folder pattern min_size blocks
                page_num img_index img) as (t1 & r & H1 & Ht1 & Hr).
    cbn [images_loop]. rewrite H1. cbn [bind].
    destruct r as [[data|]|].
    + destruct (IH (S img_index) (acc ++ [data])) as (t2 & res & -> & Ht2 & Hn).
      exists (t1 ++ t2), res. split; [done|].
      split; [by apply no_csv_app|].
      destruct res as [out|]; [|done].
      destruct Hn as (new & -> & Hn). exists (data :: new). split.
      * by rewrite <- app_assoc.
      * constructor; [|done].
        destruct Hr as (img_rect & rects & pix & _ & _ & Hw & Hh & _ & ->).
        by apply make_row_big.
    + destruct (IH (S img_index) acc) as (t2 & res & -> & Ht2 & Hn).
      exists (t1 ++ t2), res. split; [done|]. split; [|done].
      by apply no_csv_app.
    + by exists t1, None.
Qed.

Lemma image_pages_spec output_folder pattern min_size doc :
  forall page_num acc,
  exists t res,
    pages_loop output_folder pattern min_size page_num doc acc = (t, res) /\
    no_csv t /\ adds_big min_size acc res.
Proof.
  induction doc as [|pg doc IH]; intros page_num acc.
  - exists [], (Some acc). split; [done|]. split; [apply no_csv_nil|].
    exists []. by rewrite app_nil_r.
  - cbn [pages_loop].
    destruct (images pg) as [[|img imgs]|];
      [apply IH| |exists [], None; by split; [|split; [apply no_csv_nil|]]].
    destruct (text_blocks pg) as [blocks|];
      [|exists [], None; by split; [|split; [apply no_csv_nil|]]].
    destruct (image_loop_spec output_folder pattern min_size
                blocks page_num (img :: imgs) 0 acc)
      as (t1 & res1 & H1 & Ht1 & Hn1).
    rewrite H1. cbn [bind].
    destruct res1 as [out1|]; [|by exists t1, None].
    destruct Hn1 as (new1 & -> & Hn1).
    destruct (IH (S page_num) (acc ++ new1)) as (t2 & res2 & H2 & Ht2 & Hn2).
    assert (Hrows : adds_big min_size acc res2).
    { destruct res2 as [out2|]; [|done].
      destruct Hn2 as (new2 & -> & Hn2). exists (new1 ++ new2).
      split; [by rewrite app_assoc|]. apply Forall_app. by split. }
    destruct (0 <? _).
    + cbn [bind emit ret app]. rewrite H2.
      eexists _, res2. split; [reflexivity|]. split; [|done].
      apply no_csv_app; [done|]. by apply no_csv_cons.
    + cbn [bind emit ret app]. rewrite H2.
      eexists _, res2. split; [reflexivity|]. split; [|done].
      by apply no_csv_app.
Qed.

(** Every row that a run writes is the row of an image that is not
    small. *)
Lemma written_rows_big pdf_path output_folder pattern min_size doc
    path fields rows :
  WroteCsv path fields rows
    ∈ trace (extract_images_with_pattern pdf_path output_folder pattern
                                          min_size (Some doc)) ->
  Forall (big min_size) rows.
Proof.
  unfold extract_images_with_pattern.
  destruct (image_pages_spec output_folder pattern min_size doc 0 [])
    as (t & res & H & Ht & Hdata).
  cbn [bind emit ret app]. rewrite H.
  destruct res as [data|].
  2:{ cbn [trace fst]. intros Hin.
      apply elem_of_cons in Hin as [Hin|Hin]; [discriminate|].
      apply elem_of_cons in Hin as [Hin|Hin]; [discriminate|].
      by apply Ht in Hin. }
  destruct Hdata as (new & -> & Hdata). simpl app at 1.
  destruct new as [|d data]; cbn [bind emit ret app trace fst]; intros Hin;
    (apply elem_of_cons in Hin as [Hin|Hin]; [discriminate|]);
    (apply elem_of_cons in Hin as [Hin|Hin]; [discriminate|]);
    (apply elem_of_app in Hin as [Hin|Hin]; [by apply Ht in Hin|]);
    (apply elem_of_cons in Hin as [Hin|Hin]; [discriminate|]).
  - apply elem_of_cons in Hin as [Hin|Hin]; [discriminate|].
    by apply elem_of_nil in Hin.
  - apply elem_of_cons in Hin as [Hin|Hin]; [by inversion Hin; subst|].
    repeat (apply elem_of_cons in Hin as [Hin|Hin]; [discriminate|]).
    by apply elem_of_nil in Hin.
Qed.

(** C2: an image and a text block are associated exactly when the three
    comparisons hold, and the text that an image is given is that of the
    first block of the page, in the order of the text stream, that is
    associated with it and matches the pattern. *)
Theorem geometric_association :
  (forall img_rect text_rect,
     associated img_rect text_rect = true <->
     PrimFloat.ltb (y1 img_rect) (y0 text_rect) = true /\
     PrimFloat.ltb
       (PrimFloat.abs (PrimFloat.sub (x0 text_rect) (x0 img_rect)))
       100%float = true /\
     PrimFloat.ltb (PrimFloat.sub (y0 text_rect) (y1 img_rect)) 50%float
     = true) /\
  (forall pattern img_rect blocks text,
     matching_text pattern img_rect blocks = Some text <->
     exists before blk after,
       blocks = before ++ blk :: after /\
       text = strip (b_text blk) /\
       associated img_rect (b_rect blk) = true /\
       matches_pattern pattern text = true /\
       Forall (passed pattern img_rect) before) /\
  (forall output_folder pattern min_size blocks page_num img_index img t data,
     process_image output_folder pattern min_size blocks page_num img_index
                   img = (t, Some (Some data)) ->
     exists img_rect rects,
       image_rects img = Some (img_rect :: rects) /\
       matching_text pattern img_rect blocks = Some (r_full_text data)).
Proof.
  split; [apply associated_iff|]. split; [apply matching_text_first|].
  intros output_folder pattern min_size blocks page_num img_index img t data H.
  destruct (process_image_spec output_folder pattern min_size blocks
              page_num img_index img) as (t' & r & H' & _ & Hr).
  rewrite H in H'. inversion H'; subst.
  destruct Hr as (img_rect & rects & pix & Hrect & _ & _ & _ & Htext & _).
  by exists img_rect, rects.
Qed.

(** The two placements of the specification: a text just below the image
    and aligned with it, and a text far to the right. *)
Example text_below_image :
  associated (Rect 0 0 300 300) (Rect 10 310 300 330) = true.
Proof. reflexivity. Qed.

Example text_far_right :
  associated (Rect 0 0 300 300) (Rect 500 310 700 330) = false.
Proof. reflexivity. Qed.

(** C7: an image whose pixmap is narrower or lower than the minimum is
    passed over by the loop, which saves no file and yields no row for it,
    whatever text lies below it: the body returns without a row, or ends
    in the exception when the rectangles of the image cannot be read; so
    every row that a run writes has a width and a height of at least the
    minimum. *)
Theorem minimum_size_filter (output_folder : string) (pattern : regex)
    (min_size : nat) (blocks : list block) (page_num img_index : nat)
    (img : image) (pix : pixmap) (pdf_path : string) (doc : document) :
  decoded img = Ok pix ->
  width pix < min_size \/ height pix < min_size ->
  (exists t,
     process_image output_folder pattern min_size blocks page_num img_index
                   img
     = (t, match image_rects img with Some _ => Some None | None => None end)
     /\ forall path, SavedImage path ∉ t) /\
  (forall path fields rows,
     WroteCsv path fields rows
       ∈ trace (extract_images_with_pattern pdf_path output_folder pattern
                                             min_size (Some doc)) ->
     Forall (big min_size) rows).
Proof.
  intros Hdec Hsmall. split; [|apply written_rows_big].
  destruct (process_image_spec output_folder pattern min_size blocks
              page_num img_index img) as (t & r & H & _ & Hr).
  exists t. destruct r as [[data|]|].
  - destruct Hr as (img_rect & rects & pix' & _ & Hdec' & Hw & Hh & _).
    rewrite Hdec in Hdec'. inversion Hdec'; subst. lia.
  - destruct Hr as [[rects ->] Hr]. by split.
  - destruct Hr as [-> ->]. split; [done|]. intros path.
    apply not_elem_of_nil.
Qed.

(** On a page with a small and a large image above the same text. *)
Lemma minimum_size_filter_witness :
  (exists t,
     process_image "extracted_images" default_pattern default_min_size
                   [sample_block] 0 0 small_image = (t, Some None) /\
     forall path, SavedImage path ∉ t) /\
  (forall path fields rows,
     WroteCsv path fields rows
       ∈ trace (extract_images_with_pattern
                  "catalogue_2024_subset.pdf" "extracted_images"
                  default_pattern default_min_size
                  (Some [Page (Some [small_image; large_image])
                             (Some [sample_block])])) ->
     Forall (big default_min_size) rows).
Proof.
  apply (minimum_size_filter _ _ _ _ _ _ small_image
           (Pixmap 150 300 (Some 3) (Ok tt))).
  - reflexivity.
  - left. vm_compute. lia.
Defined.

(** On that page the large image is saved and the small one is not. *)
Example only_large_image_saved :
  exists data,
    extract_images_with_pattern
      "catalogue_2024_subset.pdf" "extracted_images"
      default_pattern default_min_size
      (Some [Page (Some [small_image; large_image])
                  (Some [sample_block])]) =
    ([Opened "catalogue_2024_subset.pdf"; MadeDirs "extracted_images";
      Printed (Info.check_mark ++ lit "Found matching text: "
               ++ lit "'16.1426 | Cotton Shirt'");
      Printed (Info.warning ++ lit "Skipping small image 1 on page 1: "
               ++ lit "150x300px (min: 200x200px)");
      Printed (Info.check_mark ++ lit "Found matching text: "
               ++ lit "'16.1426 | Cotton Shirt'");
      SavedImage "extracted_images/page_1_img_2.png";
      Printed (Info.check_mark ++ lit "Saved image from page 1, image 2 "
               ++ lit "(640x480px)");
      Printed (Info.page_icon ++ lit "Page 1: Extracted 1 images");
      Printed (newline :: Info.target_icon
               ++ lit "Total images extracted: 1");
      WroteCsv "extracted_images/extracted_images.csv"
               ["page"; "image_index"; "filename"; "width"; "height";
                "full_text"; "id"; "name"]
               [data];
      Printed (Info.disk_icon ++ lit "CSV data saved to: "
               ++ lit "extracted_images/extracted_images.csv");
      Closed],
     Some tt)
    /\ data = Row 1 2 "page_1_img_2.png" 640 480
                  (lit "16.1426 | Cotton Shirt") (lit "16.1426")
                  (lit "Cotton Shirt").
Proof. eexists. split; vm_compute; reflexivity. Qed.

End ImagesFacts.

Module SearchFacts.
Import Str Eff Search Samples StrFacts.

Section Lookup.
Variable lower : pystr -> pystr.

Lemma name_contains_spec query p :
  name_containsb lower query p = true <-> name_contains lower query p.
Proof.
  unfold name_containsb, name_contains.
  destruct (p !! "name") as [name|].
  - rewrite contains_spec. split.
    + intros (pre & post & H). by exists name, pre, post.
    + intros (name' & pre & post & [= <-] & H). by exists pre, post.
  - split; [discriminate|]. by intros (name & pre & post & H & _).
Qed.

Lemma matching_filter query products :
  Forall (fun p : product => is_Some (p !! "name")) products ->
  matching lower (lower query) products =
  Some (List.filter (name_containsb lower query) products).
Proof.
  induction 1 as [|p products [name Hp] _ IH]; simpl; [done|].
  assert (Hb : name_containsb lower query p
               = contains (lower query) (lower name))
    by (unfold name_containsb; by rewrite Hp).
  rewrite Hp, IH, Hb.
  by destruct (contains (lower query) (lower name)).
Qed.

Lemma main_blank products line :
  strip line = [] ->
  main lower products line =
  ([Printed (lit "No product name entered")], Some tt).
Proof. intros H. unfold main. by rewrite H. Qed.

End Lookup.

Lemma sample_table_named :
  Forall (fun p : product => is_Some (p !! "name")) sample_table.
Proof. repeat constructor; by eexists. Defined.

(** C4: on a table whose rows have a name, [find_price] returns the rows
    whose lowered name contains the lowered query as a contiguous run, in
    the order of the table; and [main] answers a line that is blank once
    stripped with its message, without searching. *)
Theorem lookup_substring_match (lower : pystr -> pystr)
    (products : list product) (query line : pystr) :
  Forall (fun p : product => is_Some (p !! "name")) products ->
  strip line = [] ->
  find_price lower products query =
  Some (List.filter (name_containsb lower query) products) /\
  (forall p, name_containsb lower query p = true <->
             name_contains lower query p) /\
  main lower products line =
  ([Printed (lit "No product name entered")], Some tt).
Proof.
  intros Hnamed Hblank. split; [|split].
  - by apply matching_filter.
  - apply name_contains_spec.
  - by apply main_blank.
Qed.

(** On the sample table, for the query Shirt and a line of spaces. *)
Lemma lookup_substring_match_witness :
  find_price ascii_lower sample_table (lit "Shirt") =
  Some (List.filter (name_containsb ascii_lower (lit "Shirt")) sample_table)
  /\
  (forall p, name_containsb ascii_lower (lit "Shirt") p = true <->
             name_contains ascii_lower (lit "Shirt") p) /\
  main ascii_lower sample_table (lit "   ") =
  ([Printed (lit "No product name entered")], Some tt).
Proof.
  apply (lookup_substring_match ascii_lower sample_table (lit "Shirt")
           (lit "   ")).
  - exact sample_table_named.
  - reflexivity.
Defined.

(** The search above finds the first and the third row. *)
Example shirt_rows :
  find_price ascii_lower sample_table (lit "Shirt") =
  Some (omap (fun i => sample_table !! i) [0; 2]).
Proof. vm_compute. reflexivity. Qed.

(** C10: on a table whose rows have a name, [find_price] with the empty
    query returns the whole table, in its order: the lowered empty string
    is empty and occurs in every name. *)
Theorem empty_query_returns_all (lower : pystr -> pystr)
    (products : list product) :
  lower [] = [] ->
  Forall (fun p : product => is_Some (p !! "name")) products ->
  find_price lower products [] = Some products.
Proof.
  intros Hlower Hnamed. unfold find_price. rewrite Hlower.
  induction Hnamed as [|p products [name Hp] _ IH]; simpl; [done|].
  by rewrite Hp, IH, contains_empty.
Qed.

(** On the sample table, with the lowering of ASCII text. *)
Lemma empty_query_returns_all_witness :
  find_price ascii_lower sample_table [] = Some sample_table.
Proof.
  apply (empty_query_returns_all ascii_lower sample_table).
  - reflexivity.
  - exact sample_table_named.
Defined.

End SearchFacts.

(** * Further properties *)

Module ReMore.
Import Str Re Plain ReFacts.

Lemma run_length_le p s : run_length p s <= length s.
Proof.
  induction s as [|c s IH]; simpl; [lia|]. destruct (p c); simpl; lia.
Qed.

Lemma run_length_take p s :
  Forall (fun c => p c = true) (take (run_length p s) s).
Proof.
  induction s as [|c s IH]; simpl; [constructor|].
  destruct (p c) eqn:E; simpl; [by constructor|constructor].
Qed.

Lemma run_length_drop p s :
  match drop (run_length p s) s with
  | [] => True
  | c :: _ => p c = false
  end.
Proof.
  induction s as [|c s IH]; simpl; [done|].
  destruct (p c) eqn:E; simpl; [exact IH|done].
Qed.

Section Run.
Context {R : Type}.
Variable p : N -> bool.
Variable step : cursor -> caps -> (cursor -> caps -> option R) -> option R.
Hypothesis step_cls : forall st cs k, step st cs k = run (Cls p) st cs k.
Variable lo : nat.
Variable k : cursor -> caps -> option R.
Hypothesis k_total : forall st cs, is_Some (k st cs).

(** Before a continuation that accepts every cursor, a greedy repetition
    of a class takes the longest run of the class, when that is long
    enough, and fails otherwise. *)
Lemma rep_cls_run fuel : forall cnt i s cs,
  length s <= fuel ->
  rep_loop step true lo None k fuel cnt (Cursor i s) cs =
  if lo <=? cnt + run_length p s
  then k (Cursor (i + run_length p s) (drop (run_length p s) s)) cs
  else None.
Proof.
  induction fuel as [|fuel IH]; intros cnt i s cs Hfuel.
  - destruct s; [|simpl in Hfuel; lia].
    simpl. by rewrite !Nat.add_0_r.
  - cbn [rep_loop below]. rewrite step_cls, run_cls. cbn [rest pos].
    destruct s as [|c s].
    + simpl. by rewrite !Nat.add_0_r.
    + cbn [run_length]. destruct (p c) eqn:Hc.
      * assert (Hlt : (i <? S i) = true) by (apply Nat.ltb_lt; lia).
        rewrite Hlt, IH by (simpl in Hfuel; lia).
        replace (cnt + S (run_length p s)) with (S cnt + run_length p s)
          by lia.
        replace (i + S (run_length p s)) with (S i + run_length p s) by lia.
        cbn [drop].
        destruct (lo <=? S cnt + run_length p s) eqn:Hlo.
        -- destruct (k_total (Cursor (S i + run_length p s)
                                     (drop (run_length p s) s)) cs)
             as [y Hy].
           by rewrite Hy.
        -- apply Nat.leb_gt in Hlo.
           destruct (lo <=? cnt) eqn:Hlo'; [|done].
           apply Nat.leb_le in Hlo'. lia.
      * simpl. by rewrite !Nat.add_0_r.
Qed.

End Run.

(** An attempt of a greedy, unbounded repetition of a class. *)
Lemma attempt_rep_cls p lo at_ s :
  attempt (Rep true lo None (Cls p)) false (Cursor at_ s) =
  if lo <=? run_length p s
  then Some (Match at_ (at_ + run_length p s) (take (run_length p s) s) ∅)
  else None.
Proof.
  unfold attempt. rewrite run_rep. cbn [rest].
  rewrite (rep_cls_run p (run (Cls p)) (fun _ _ _ => eq_refl));
    [|by eexists|done].
  cbn [Nat.add andb pos rest]. unfold consumed. cbn [pos rest].
  by replace (at_ + run_length p s - at_) with (run_length p s) by lia.
Qed.

Lemma pieces_skip r : forall skip s at_,
  skip <= length s ->
  pieces r at_ skip s = pieces r (at_ + skip) 0 (drop skip s).
Proof.
  induction skip as [|skip IH]; intros s at_ Hskip.
  - by rewrite Nat.add_0_r.
  - destruct s as [|c s]; [simpl in Hskip; lia|].
    cbn [pieces drop]. rewrite IH by (simpl in Hskip; lia).
    by replace (S at_ + skip) with (at_ + S skip) by lia.
Qed.

(** Where no attempt succeeds the scan is the subject itself. *)
Lemma pieces_none r repl s : forall at_,
  (forall j, attempt r false (Cursor (at_ + j) (drop j s)) = None) ->
  render repl (pieces r at_ 0 s) = s.
Proof.
  induction s as [|c s IH]; intros at_ Hnone.
  - cbn [pieces]. specialize (Hnone 0). rewrite Nat.add_0_r in Hnone.
    cbn [drop] in Hnone. by rewrite Hnone.
  - cbn [pieces]. pose proof (Hnone 0) as H0. rewrite Nat.add_0_r in H0.
    cbn [drop] in H0. rewrite H0. unfold render. cbn [map concat app].
    f_equal. apply IH. intros j. specialize (Hnone (S j)).
    by replace (at_ + S j) with (S at_ + j) in Hnone by lia.
Qed.

Lemma sub_render r repl s : sub r repl s = render repl (pieces r 0 0 s).
Proof. reflexivity. Qed.

Lemma matches_groupless r st cs st' cs' :
  matches r st cs st' cs' -> groupless r = true -> cs' = cs.
Proof.
  induction 1; simpl; intros Hg; try done.
  - apply andb_true_iff in Hg as [H1 H2]. rewrite IHmatches2, IHmatches1; done.
  - apply andb_true_iff in Hg as [H1 H2]. by apply IHmatches.
  - apply andb_true_iff in Hg as [H1 H2]. by apply IHmatches.
  - rewrite IHmatches2, IHmatches1; done.
  - by apply IHmatches.
Qed.

Lemma run_bos {R} st cs (k : cursor -> caps -> option R) :
  run Bos st cs k = if pos st =? 0 then k st cs else None.
Proof. reflexivity. Qed.

Lemma matches_cls_inv p st cs st' cs' :
  matches (Cls p) st cs st' cs' ->
  cs' = cs /\ exists c, p c = true /\ span st st' [c].
Proof.
  inversion 1 as [|? ? c ? ? Hc| | | | | | | |]; subst.
  split; [done|]. exists c. split; [done|]. split; simpl; [done|lia].
Qed.

Lemma span_nil st w : span st st w -> w = [].
Proof. intros [_ H]. destruct w; [done|simpl in H; lia]. Qed.

(** A bounded repetition of a class takes no more than its bound. *)
Lemma matches_rep_cls_bound g p st' cs' : forall lo h st cs w,
  matches (Rep g lo (Some h) (Cls p)) st cs st' cs' ->
  span st st' w -> length w <= h.
Proof.
  intros lo h st cs w H. remember (Rep g lo (Some h) (Cls p)) as r eqn:Er.
  revert lo h w Er.
  induction H as [| | | | | g' hi' r' st cs |
                  g' lo' hi' r' st cs st1 cs1 st2 cs2 Hb H1 _ Hlt H2 IH2
                  | | |];
    intros lo h w Er Hs; try discriminate.
  - apply span_nil in Hs as ->. simpl. lia.
  - inversion Er; subst. clear Er.
    apply matches_cls_inv in H1 as (_ & c & _ & Hc).
    destruct (matches_span _ _ _ _ _ H2) as [w2 Hw2].
    specialize (IH2 _ _ w2 eq_refl Hw2).
    rewrite (span_unique _ _ _ _ Hs (span_trans _ _ _ _ _ Hc Hw2)).
    simpl in Hb. apply Nat.ltb_lt in Hb. simpl. lia.
Qed.

(** A repetition of a separator and a run of a class takes separated
    segments and leaves the groups alone. *)
Lemma matches_rep_sep g q p st' cs' : forall lo hi st cs,
  matches (Rep g lo hi (Cat (Cls q) (Rep true 1 None (Cls p)))) st cs st' cs'
  ->
  cs' = cs /\
  exists segs,
    span st st' (joined segs) /\ lo <= length segs /\
    Forall (fun '(sep, seg) => q sep = true /\ segment p seg) segs.
Proof.
  intros lo hi st cs H.
  remember (Rep g lo hi (Cat (Cls q) (Rep true 1 None (Cls p)))) as r eqn:Er.
  revert lo hi Er.
  induction H as [| | | | | g' hi' r' st cs |
                  g' lo' hi' r' st cs st1 cs1 st2 cs2 Hb H1 _ Hlt H2 IH2
                  | | |];
    intros lo hi Er; try discriminate.
  - inversion Er; subst. split; [done|].
    exists []. split; [apply span_refl|]. split; [simpl; lia|constructor].
  - inversion Er; subst. clear Er.
    destruct (IH2 _ _ eq_refl) as (-> & segs & Hs & Hlen & Hall).
    invert_cat H1 Hsep Hrun.
    apply matches_cls_inv in Hsep as (-> & sep & Hq & Hs1).
    apply matches_rep_cls in Hrun as (-> & seg & Hs2 & Hp & Hl).
    split; [done|]. exists ((sep, seg) :: segs). split; [|split].
    + unfold joined. cbn [map concat].
      change (sep :: seg) with ([sep] ++ seg). rewrite <- app_assoc.
      exact (span_trans _ _ _ _ _ Hs1 (span_trans _ _ _ _ _ Hs2 Hs)).
    + simpl. lia.
    + constructor; [|done]. split; [done|]. split; [|done].
      destruct seg; [simpl in Hl; lia|done].
Qed.

(** The word that a pattern takes is made of characters that it can
    consume. *)
Lemma matches_accepts P r st cs st' cs' :
  matches r st cs st' cs' -> accepts P r ->
  forall w, span st st' w -> Forall P w.
Proof.
  induction 1 as [st cs|p i c s cs Hc
                  |r1 r2 st cs st1 cs1 st2 cs2 H1 IH1 H2 IH2
                  |r1 r2 st cs st' cs' H IH|r1 r2 st cs st' cs' H IH
                  |g hi r st cs
                  |g lo hi r st cs st1 cs1 st2 cs2 Hb H1 IH1 Hlt H2 IH2
                  |g r st cs st' cs' H IH|r st cs st' cs' H IH|st cs Hp];
    intros Hacc w Hs.
  - apply span_nil in Hs as ->. constructor.
  - assert (Hc' : span (Cursor i (c :: s)) (Cursor (S i) s) [c])
      by (split; simpl; [done|lia]).
    rewrite (span_unique _ _ _ _ Hs Hc'). constructor; [by apply Hacc|done].
  - destruct Hacc as [Ha1 Ha2].
    destruct (matches_span _ _ _ _ _ H1) as [w1 Hw1].
    destruct (matches_span _ _ _ _ _ H2) as [w2 Hw2].
    rewrite (span_unique _ _ _ _ Hs (span_trans _ _ _ _ _ Hw1 Hw2)).
    apply Forall_app. split; [by apply IH1|by apply IH2].
  - destruct Hacc as [Ha1 Ha2]. by apply IH.
  - destruct Hacc as [Ha1 Ha2]. by apply IH.
  - apply span_nil in Hs as ->. constructor.
  - destruct (matches_span _ _ _ _ _ H1) as [w1 Hw1].
    destruct (matches_span _ _ _ _ _ H2) as [w2 Hw2].
    rewrite (span_unique _ _ _ _ Hs (span_trans _ _ _ _ _ Hw1 Hw2)).
    apply Forall_app. split; [by apply IH1|by apply IH2].
  - by apply IH.
  - apply span_nil in Hs as ->. constructor.
  - apply span_nil in Hs as ->. constructor.
Qed.

End ReMore.

(** ** Whitespace runs *)

Module Spaces.
Import Str Re Plain ReFacts ReMore StrFacts.

Lemma collapse_from_true s :
  collapse_from true s = collapse (drop (run_length isspace s) s).
Proof.
  induction s as [|c s IH]; simpl; [done|].
  destruct (isspace c) eqn:E; simpl; [exact IH|].
  unfold collapse. simpl. by rewrite E.
Qed.

Lemma render_spaces : forall n s at_,
  length s <= n ->
  render [space] (pieces (plus ws) at_ 0 s) = collapse s.
Proof.
  induction n as [|n IH]; intros s at_ Hn.
  - destruct s; [|simpl in Hn; lia]. cbn [pieces].
    unfold plus, ws. by rewrite attempt_rep_cls.
  - destruct s as [|c s].
    + cbn [pieces]. unfold plus, ws. by rewrite attempt_rep_cls.
    + cbn [pieces]. unfold plus, ws. rewrite attempt_rep_cls.
      cbn [run_length]. unfold collapse. cbn [collapse_from].
      destruct (isspace c) eqn:Hc.
      * cbn [Nat.leb m_end].
        assert (Hne : (at_ + S (run_length isspace s) =? at_) = false)
          by (apply Nat.eqb_neq; lia).
        rewrite Hne.
        replace (at_ + S (run_length isspace s) - at_ - 1)
          with (run_length isspace s) by lia.
        rewrite pieces_skip by apply run_length_le.
        unfold render. cbn [map concat app]. f_equal.
        rewrite collapse_from_true.
        apply (IH _ (S at_ + run_length isspace s)).
        rewrite length_drop. simpl in Hn. lia.
      * cbn [Nat.leb]. unfold render. cbn [map concat app]. f_equal.
        apply (IH _ (S at_)). simpl in Hn. lia.
Qed.

(** The substitution of [\s+] by a space replaces every run of whitespace
    by one space. *)
Lemma sub_spaces s : sub (plus ws) [space] s = collapse s.
Proof. rewrite sub_render. by apply (render_spaces (length s)). Qed.


Lemma space_isspace : isspace space = true.
Proof. reflexivity. Qed.

Lemma collapse_from_spaces b s :
  Forall (fun c => isspace c = true -> c = space) (collapse_from b s).
Proof.
  revert b. induction s as [|c s IH]; intros b; simpl; [constructor|].
  destruct (isspace c) eqn:E.
  - destruct b; [apply IH|]. constructor; [done|apply IH].
  - constructor; [congruence|apply IH].
Qed.

Lemma collapse_from_true_head s c t :
  collapse_from true s = c :: t -> isspace c = false.
Proof.
  induction s as [|d s IH]; simpl; [discriminate|].
  destruct (isspace d) eqn:E; [exact IH|]. by intros [= <- _].
Qed.

Lemma collapse_from_apart s : forall b before c d after,
  collapse_from b s = before ++ c :: d :: after ->
  isspace c = true -> isspace d = false.
Proof.
  induction s as [|c0 s IH]; intros b before c d after H Hc; simpl in H.
  - by destruct before.
  - destruct (isspace c0) eqn:E.
    + destruct b; [by eapply IH|].
      destruct before as [|x before]; simpl in H; inversion H; subst.
      * by eapply collapse_from_true_head.
      * by eapply IH.
    + destruct before as [|x before]; simpl in H; inversion H; subst.
      * congruence.
      * by eapply IH.
Qed.

Lemma collapse_single_spaced s : single_spaced (collapse s).
Proof.
  split; [apply collapse_from_spaces|].
  intros before c d after. apply collapse_from_apart.
Qed.

Lemma single_spaced_infix a s b :
  single_spaced (a ++ s ++ b) -> single_spaced s.
Proof.
  intros [Hsp Hap]. split.
  - by apply Forall_app in Hsp as [_ [Hsp _]%Forall_app].
  - intros before c d after -> Hc.
    apply (Hap (a ++ before) c d (after ++ b)); [|done].
    by rewrite <- !app_assoc.
Qed.

Lemma rstrip_prefix s : exists w, s = rstrip s ++ w.
Proof.
  unfold rstrip. destruct (lstrip_suffix (rev s)) as [w H].
  exists (rev w). rewrite <- rev_app_distr, <- H. by rewrite rev_involutive.
Qed.

Lemma strip_infix s : exists a b, s = a ++ strip s ++ b.
Proof.
  unfold strip. destruct (lstrip_suffix s) as [a Ha].
  destruct (rstrip_prefix (lstrip s)) as [b Hb].
  exists a, b. by rewrite <- Hb.
Qed.

Lemma strip_single_spaced s : single_spaced s -> single_spaced (strip s).
Proof.
  destruct (strip_infix s) as (a & b & H). intros Hs. rewrite H in Hs.
  by apply single_spaced_infix in Hs.
Qed.

Lemma rstrip_last s c t : rstrip s = t ++ [c] -> isspace c = false.
Proof.
  unfold rstrip. intros H.
  assert (Hl : lstrip (rev s) = c :: rev t).
  { rewrite <- (rev_involutive (lstrip (rev s))), H, rev_app_distr.
    done. }
  destruct (lstrip_head (rev s)) as [Hn|(c' & s' & Hc & Hsp)]; congruence.
Qed.

Lemma strip_trimmed s : trimmed (strip s).
Proof.
  split.
  - intros c t H. unfold strip in H.
    destruct (lstrip_head s) as [Hn|(c' & s' & Hc & Hsp)].
    + rewrite Hn in H. discriminate.
    + rewrite Hc, rstrip_cons in H by done. congruence.
  - intros c t H. by apply rstrip_last in H.
Qed.

Lemma trimmed_strip s : trimmed s -> strip s = s.
Proof.
  intros [Hfirst Hlast]. unfold strip.
  assert (Hl : lstrip s = s).
  { destruct s as [|c s]; [done|]. apply lstrip_fixed. by eapply Hfirst. }
  rewrite Hl. unfold rstrip.
  destruct (rev s) as [|c r] eqn:Hr.
  - apply (f_equal (@rev N)) in Hr. rewrite rev_involutive in Hr. by subst.
  - rewrite lstrip_fixed.
    + by rewrite <- Hr, rev_involutive.
    + apply (Hlast c (rev r)).
      apply (f_equal (@rev N)) in Hr. by rewrite rev_involutive in Hr.
Qed.

Lemma collapse_fixed s :
  single_spaced s ->
  collapse s = s /\
  ((forall c t, s = c :: t -> isspace c = false) -> collapse_from true s = s).
Proof.
  unfold collapse. induction s as [|c s IH]; intros Hs; [done|].
  assert (Hs' : single_spaced s)
    by (apply (single_spaced_infix [c] s []); by rewrite app_nil_r).
  destruct (IH Hs') as [IH1 IH2]. destruct Hs as [Hsp Hap].
  apply Forall_cons in Hsp as [Hc _]. simpl.
  destruct (isspace c) eqn:E.
  - split.
    + rewrite (Hc eq_refl). f_equal. apply IH2.
      intros d t ->. by apply (Hap [] c d t).
    + intros Hhead. specialize (Hhead c s eq_refl). congruence.
  - split; [by rewrite IH1|]. intros _. by rewrite IH1.
Qed.

Lemma newline_not_collapsed s : newline ∉ collapse s.
Proof.
  intros Hin. pose proof (collapse_from_spaces false s) as H.
  unfold collapse in Hin. rewrite Forall_forall in H.
  by specialize (H _ Hin eq_refl).
Qed.

End Spaces.

(** ** [scraper/extract_prices_position.py] *)

Module PricesMore.
Import Str Re Eff Prices Plain Shape Samples.
Import ReFacts ReMore StrFacts Spaces PricesFacts.

Lemma run_rep_cls_caps g p lo hi st cs st' cs' :
  matches (Rep g lo hi (Cls p)) st cs st' cs' -> cs' = cs.
Proof. by intros [-> _]%matches_rep_cls. Qed.

(** The groups of a match of the identifier and name pattern. *)
Lemma id_group st mo :
  found id_name_re st mo -> dotted_id (group "id" mo).
Proof.
  intros (st' & w0 & Hm & _). unfold group. revert Hm.
  generalize (m_groups mo). intros cs Hm.
  unfold id_name_re in Hm. simpl in Hm.
  invert_cat Hm Hid Hm1. invert_cat Hm1 Hws Hm2. invert_cat Hm2 Hbar Hm3.
  invert_cat Hm3 Hws' Hm4. invert_grp Hm4 Hm5.
  apply run_rep_cls_caps in Hm5 as ->. apply run_rep_cls_caps in Hws' as ->.
  apply matches_cls_inv in Hbar as [-> _]. apply run_rep_cls_caps in Hws as ->.
  invert_grp Hid Hid1. invert_cat Hid1 Hfirst Hsegs.
  apply matches_rep_cls in Hfirst as (_ & first & Hs1 & Hp1 & Hl1).
  apply matches_rep_sep in Hsegs as (_ & segs & Hs2 & Hl2 & Hall).
  rewrite lookup_insert_ne by done. rewrite lookup_insert_eq. simpl.
  rewrite (span_consumed _ _ _ (span_trans _ _ _ _ _ Hs1 Hs2)).
  exists first, segs. split; [done|]. split.
  - destruct segs; [simpl in Hl2; lia|done].
  - split; [|done]. split; [|done]. destruct first; [simpl in Hl1; lia|done].
Qed.

Lemma digits_without_comma w :
  Forall (fun c => isdecimal c = true) w -> comma ∉ w.
Proof.
  intros H Hin. rewrite Forall_forall in H. specialize (H _ Hin).
  vm_compute in H. discriminate.
Qed.

(** The price group of a match of the price pattern, with its comma
    replaced, is a decimal amount. *)
Lemma price_amount st pm :
  found price_re st pm ->
  decimal_amount (replace comma dot (group "price" pm)).
Proof.
  intros (st' & w0 & Hm & _). unfold group. revert Hm.
  generalize (m_groups pm). intros cs Hm.
  unfold price_re in Hm. simpl in Hm.
  invert_cat Hm Heuro Hm1. invert_cat Hm1 Hws Hm2. invert_grp Hm2 Hm3.
  invert_cat Hm3 Hwhole Hm4. invert_cat Hm4 Hsep Hfrac.
  apply matches_rep_cls in Hwhole as (_ & whole & Hs1 & Hp1 & Hl1).
  apply matches_cls_inv in Hsep as (_ & sep & Hq & Hs2).
  pose proof Hfrac as Hbound.
  apply matches_rep_cls in Hfrac as (_ & frac & Hs3 & Hp3 & Hl3).
  apply (matches_rep_cls_bound _ _ _ _ _ _ _ _ frac) in Hbound; [|done].
  rewrite lookup_insert_eq. simpl.
  rewrite (span_consumed _ _ _
             (span_trans _ _ _ _ _ Hs1 (span_trans _ _ _ _ _ Hs2 Hs3))).
  exists whole, frac. split; [|split; [|split]].
  - unfold replace. rewrite map_app. cbn [app map].
    fold (replace comma dot whole). fold (replace comma dot frac).
    rewrite !replace_fixed by by apply digits_without_comma.
    do 2 f_equal. cbn [existsb] in Hq.
    rewrite !orb_true_iff, !N.eqb_eq in Hq.
    destruct Hq as [->|[->|Hq]]; [done|done|discriminate].
  - split; [|done]. destruct whole; [simpl in Hl1; lia|done].
  - split; [|done]. destruct frac; [simpl in Hl3; lia|done].
  - done.
Qed.


(** X1: the identifier of every record is made of two or more non-empty
    segments of ASCII letters and digits, with one dot between each two. *)
Theorem ids_dotted (page_num : nat) (text : pystr) :
  Forall (fun p => dotted_id (ID p)) (page_products page_num text).
Proof.
  apply Forall_lookup. intros i p Hp.
  rewrite page_products_lookup in Hp.
  destruct (finditer id_name_re text !! i) as [mo|] eqn:Hi; [|discriminate].
  simpl in Hp. injection Hp as <-. simpl.
  pose proof (finditer_found id_name_re text) as Hall.
  rewrite Forall_lookup in Hall. destruct (Hall _ _ Hi) as [st Hf].
  by apply id_group in Hf.
Qed.

(** X2: the price of every record is the sentinel or the currency sign
    before a decimal amount: digits, a dot, and one or two digits. *)
Theorem prices_decimal (page_num : nat) (text : pystr) :
  Forall (fun p =>
            Price p = not_found \/
            exists amount, Price p = euro :: amount /\ decimal_amount amount)
         (page_products page_num text).
Proof.
  apply Forall_lookup. intros i p Hp.
  rewrite page_products_lookup in Hp.
  destruct (finditer id_name_re text !! i) as [mo|]; [|discriminate].
  simpl in Hp. injection Hp as <-. simpl.
  destruct (finditer price_re text !! i) as [pm|] eqn:Hpm.
  - destruct (price_at_found text i pm Hpm) as [-> ->]. right.
    eexists. split; [done|].
    pose proof (finditer_found price_re text) as Hall.
    rewrite Forall_lookup in Hall. destruct (Hall _ _ Hpm) as [st Hf].
    by apply price_amount in Hf.
  - left. unfold price_at. by rewrite Hpm.
Qed.

Lemma newline_found st mo : found newline_re st mo -> newline ∈ rest st.
Proof.
  intros (st' & w0 & Hm & _). unfold newline_re in Hm. simpl in Hm.
  invert_cat Hm Hws Hm1. invert_cat Hm1 Hnl Hm2.
  apply matches_span in Hws as [w1 [Hs1 _]].
  apply matches_cls_inv in Hnl as (_ & c & Hc & [Hs2 _]).
  apply N.eqb_eq in Hc as <-.
  rewrite Hs1, Hs2. apply elem_of_app. right. apply elem_of_app. left.
  apply list_elem_of_here.
Qed.

Lemma sub_newline_fixed repl s :
  newline ∉ s -> sub newline_re repl s = s.
Proof.
  intros Hs. rewrite sub_render. apply pieces_none. intros j.
  destruct (attempt newline_re false _) as [mo|] eqn:E; [|done].
  apply attempt_found in E as [E _]. apply newline_found in E.
  cbn [rest] in E. exfalso. apply Hs.
  rewrite <- (take_drop j s). apply elem_of_app. by right.
Qed.

Lemma clean_product_name_collapse name :
  clean_product_name name = strip (collapse name).
Proof.
  unfold clean_product_name. rewrite sub_spaces.
  by rewrite sub_newline_fixed by apply newline_not_collapsed.
Qed.

(** X3: [clean_product_name] replaces every run of whitespace by one space
    and strips the ends; its second substitution, for newlines, never
    changes the text that the first one leaves. *)
Theorem clean_product_name_plain (name : pystr) :
  sub newline_re [space] (sub spaces_re [space] name)
  = sub spaces_re [space] name /\
  clean_product_name name = strip (collapse name).
Proof.
  split; [|apply clean_product_name_collapse].
  rewrite sub_spaces. apply sub_newline_fixed, newline_not_collapsed.
Qed.

(** X4: in a cleaned name whitespace occurs only as single spaces between
    other characters, never at an end; cleaning a cleaned name changes
    nothing. *)
Theorem clean_product_name_normal (name : pystr) :
  single_spaced (clean_product_name name) /\
  trimmed (clean_product_name name) /\
  clean_product_name (clean_product_name name) = clean_product_name name.
Proof.
  rewrite (clean_product_name_collapse name).
  assert (Hs : single_spaced (strip (collapse name)))
    by apply strip_single_spaced, collapse_single_spaced.
  split; [done|]. split; [apply strip_trimmed|].
  rewrite (clean_product_name_collapse (strip (collapse name))).
  destruct (collapse_fixed _ Hs) as [-> _]. apply strip_idem.
Qed.

Lemma pages_from_unreadable doc : forall page_num acc,
  None ∈ doc -> pages_from page_num doc acc = ([], None).
Proof.
  induction doc as [|[text|] doc IH]; intros page_num acc Hin; simpl.
  - by apply elem_of_nil in Hin.
  - apply elem_of_cons in Hin as [Hin|Hin]; [discriminate|]. by apply IH.
  - done.
Qed.

(** X5: when the text of some page cannot be read, the run of the script
    ends in the exception right after it has opened the document: it
    prints nothing and writes no file. *)
Theorem unreadable_page_stops_script (doc : document) :
  None ∈ doc -> script (Some doc) = ([Opened pdf_path], None).
Proof.
  intros Hin. unfold script, extract_product_data.
  cbn [bind emit ret app]. by rewrite pages_from_unreadable.
Qed.

Lemma unreadable_page_stops_script_witness :
  script (Some [Some sample_page; None]) = ([Opened pdf_path], None).
Proof.
  apply unreadable_page_stops_script.
  apply list_elem_of_further, list_elem_of_here.
Defined.

Lemma collapse_from_last b s y :
  isspace y = false -> 1 <= length (collapse_from b (s ++ [y])).
Proof.
  intros Hy. revert b. induction s as [|c s IH]; intros b; simpl.
  - rewrite Hy. simpl. lia.
  - destruct (isspace c); [destruct b|]; simpl; try apply IH.
    + specialize (IH true). lia.
    + specialize (IH false). lia.
Qed.

Lemma collapse_trimmed_length s :
  trimmed s -> 4 <= length s -> 3 <= length (strip (collapse s)).
Proof.
  intros Ht Hlen.
  destruct Ht as [Hfirst Hlast].
  destruct s as [|c s]; [simpl in Hlen; lia|].
  destruct s as [|a s]; [simpl in Hlen; lia|].
  destruct (rev s) as [|y r] eqn:Hr.
  { apply (f_equal (@rev N)) in Hr. rewrite rev_involutive in Hr.
    subst. simpl in Hlen. lia. }
  apply (f_equal (@rev N)) in Hr. rewrite rev_involutive in Hr.
  simpl in Hr. subst s.
  assert (Hc0 : isspace c = false) by by eapply Hfirst.
  assert (Hy : isspace y = false).
  { apply (Hlast y (c :: a :: rev r)). by rewrite <- !app_comm_cons. }
  assert (Htr : trimmed (collapse (c :: a :: rev r ++ [y]))).
  { unfold collapse. split.
    - intros d t. simpl. rewrite Hc0. by intros [= <- _].
    - intros d t H.
      assert (Hend : forall b u,
                exists v, collapse_from b (u ++ [y]) = v ++ [y]).
      { intros b u. revert b. induction u as [|e u IHu]; intros b; simpl.
        - rewrite Hy. by exists [].
        - destruct (isspace e); [destruct b|].
          + apply IHu.
          + destruct (IHu true) as [v ->]. by exists (space :: v).
          + destruct (IHu false) as [v ->]. by exists (e :: v). }
      destruct (Hend false (c :: a :: rev r)) as [v Hv].
      rewrite <- !app_comm_cons in Hv. rewrite Hv in H.
      apply app_inj_tail in H as [_ <-]. done. }
  rewrite (trimmed_strip _ Htr). unfold collapse. simpl. rewrite Hc0.
  destruct (isspace a); simpl.
  - pose proof (collapse_from_last true (rev r) y Hy). lia.
  - pose proof (collapse_from_last false (rev r) y Hy). lia.
Qed.

(** X6: every record that the filter keeps has, once its name is cleaned,
    a name of three characters or more. *)
Theorem valid_names_length (page_num : nat) (text : pystr) :
  Forall (fun q => 3 <= length (Name q))
         (cleaned_products (page_products page_num text)).
Proof.
  apply Forall_forall. intros q Hq. unfold cleaned_products in Hq.
  apply list_elem_of_In, in_map_iff in Hq as (p & <- & Hp).
  apply list_elem_of_In, list_elem_of_filter in Hp as [Hv Hp].
  simpl. apply valid_iff in Hv.
  pose proof (page_products_stripped page_num text) as Hs.
  rewrite Forall_forall in Hs. specialize (Hs _ Hp).
  rewrite (clean_product_name_collapse (Name p)).
  apply collapse_trimmed_length; [|rewrite <- Hs; lia].
  rewrite <- Hs. apply strip_trimmed.
Qed.

End PricesMore.

(** ** [scraper/extract_product_info.py] *)

Module InfoMore.
Import Str Re Eff Info Plain Shape Samples.
Import ReFacts ReMore StrFacts Spaces.

Lemma split_once_none c s : split_once c s = None <-> c ∉ s.
Proof.
  induction s as [|d s IH]; simpl.
  - split; [intros _; apply not_elem_of_nil|done].
  - destruct (N.eqb_spec d c) as [->|Hd].
    + split; [discriminate|]. intros H. destruct H. apply list_elem_of_here.
    + destruct (split_once c s) as [[a b]|].
      * split; [discriminate|]. intros H. exfalso.
        assert (Hs : c ∉ s).
        { intros Hin. apply H. by apply list_elem_of_further. }
        apply IH in Hs. discriminate.
      * split; [|done]. intros _. apply not_elem_of_cons. split; [done|].
        by apply IH.
Qed.

Lemma split_once_some c s a b :
  split_once c s = Some (a, b) -> s = a ++ c :: b /\ c ∉ a.
Proof.
  revert a. induction s as [|d s IH]; intros a H; simpl in H; [discriminate|].
  destruct (N.eqb_spec d c) as [->|Hd].
  - injection H as <- <-. split; [done|apply not_elem_of_nil].
  - destruct (split_once c s) as [[a' b']|]; [|discriminate].
    injection H as <- <-. destruct (IH a' eq_refl) as [-> Ha].
    split; [done|]. apply not_elem_of_cons. by split.
Qed.

(** X7: a chunk without a bar parses to nothing, and only such a chunk
    does; every other chunk parses to a record of the given page whose
    [full_text] is the first 500 characters of the chunk. *)
Theorem parse_product_text_result (text_chunk : pystr) (page_num : nat) :
  (parse_product_text text_chunk page_num = None <-> bar ∉ text_chunk) /\
  match parse_product_text text_chunk page_num with
  | Some p =>
      page p = page_num /\ full_text p = take 500 text_chunk /\
      length (full_text p) <= 500
  | None => True
  end.
Proof.
  unfold parse_product_text.
  destruct (split_once bar text_chunk) as [[part0 part1]|] eqn:E.
  - split.
    + split; [discriminate|]. intros H%split_once_none. congruence.
    + cbn [page full_text]. repeat split. rewrite length_take. lia.
  - split; [|done]. split; [intros _; by apply split_once_none|done].
Qed.

Lemma attempt_leading at_ s :
  attempt leading_re false (Cursor at_ s) =
  if at_ =? 0
  then attempt (Rep true 1 None (Cls dot_or_space)) false (Cursor 0 s)
  else None.
Proof.
  unfold attempt, leading_re. rewrite run_cat. cbn [run pos].
  destruct (Nat.eqb_spec at_ 0) as [->|_]; done.
Qed.

(** The substitution of the leading pattern by nothing drops the longest
    prefix of dots and whitespace. *)
Lemma sub_leading s :
  sub leading_re [] s = drop (run_length dot_or_space s) s.
Proof.
  assert (Hlater : forall at_ t,
            render [] (pieces leading_re (S at_) 0 t) = t).
  { intros at_ t. apply pieces_none. intros j. by rewrite attempt_leading. }
  rewrite sub_render. destruct s as [|c s].
  - cbn [pieces]. rewrite attempt_leading. cbn [Nat.eqb].
    by rewrite attempt_rep_cls.
  - cbn [pieces]. rewrite attempt_leading. cbn [Nat.eqb].
    rewrite attempt_rep_cls. cbn [run_length].
    destruct (dot_or_space c).
    + cbn [Nat.leb m_end Nat.add Nat.eqb]. rewrite Nat.sub_0_r.
      cbn [Nat.sub]. rewrite Nat.sub_0_r.
      rewrite pieces_skip by apply run_length_le.
      unfold render. cbn [map concat app drop]. apply Hlater.
    + cbn [Nat.leb drop]. unfold render. cbn [map concat app].
      f_equal. apply Hlater.
Qed.

Lemma strip_keeps_absent c s : c ∉ s -> c ∉ strip s.
Proof.
  intros H Hin. apply H. destruct (strip_infix s) as (a & b & Hs).
  rewrite Hs. apply elem_of_app. right. apply elem_of_app. by left.
Qed.

Lemma drop_keeps_absent (c : N) n s : c ∉ s -> c ∉ drop n s.
Proof.
  intros H Hin. apply H. rewrite <- (take_drop n s).
  apply elem_of_app. by right.
Qed.

Lemma strip_head c s t :
  strip s = c :: t ->
  exists a u, s = a ++ c :: u /\ Forall (fun d => isspace d = true) a.
Proof.
  unfold strip. intros H.
  assert (Ha : forall v, exists a, v = a ++ lstrip v
                                   /\ Forall (fun d => isspace d = true) a).
  { induction v as [|d v [a [IH1 IH2]]]; simpl.
    - by exists [].
    - destruct (isspace d) eqn:E.
      + exists (d :: a). split; [simpl; by f_equal|by constructor].
      + by exists []. }
  destruct (Ha s) as (a & Hs & Hsp).
  destruct (rstrip_prefix (lstrip s)) as [w Hw].
  rewrite H in Hw. exists a, (t ++ w). split; [|done].
  rewrite Hs at 1. by rewrite Hw.
Qed.

(** X8: the identifier of a parsed record has no bar in it, starts neither
    with a dot nor with whitespace, and does not end with whitespace. *)
Theorem product_id_clean (text_chunk : pystr) (page_num : nat) :
  match parse_product_text text_chunk page_num with
  | Some p =>
      (bar ∉ id p) /\ trimmed (id p) /\
      forall c t, id p = c :: t -> c <> dot
  | None => True
  end.
Proof.
  unfold parse_product_text.
  destruct (split_once bar text_chunk) as [[part0 part1]|] eqn:E; [|done].
  cbn [id]. apply split_once_some in E as [_ Hbar].
  rewrite sub_leading. split; [|split].
  - by apply strip_keeps_absent, drop_keeps_absent, strip_keeps_absent.
  - apply strip_trimmed.
  - intros c t H. apply strip_head in H as (a & u & H & Ha).
    pose proof (run_length_drop dot_or_space (strip part0)) as Hd.
    rewrite H in Hd. destruct a as [|d a].
    + simpl in Hd. intros ->. unfold dot_or_space in Hd.
      by rewrite N.eqb_refl in Hd.
    + simpl in Hd. apply Forall_cons in Ha as [Ha _].
      unfold dot_or_space in Hd. rewrite Ha, orb_true_r in Hd. discriminate.
Qed.


Lemma strip_nonempty c t : isspace c = false -> strip (c :: t) <> [].
Proof.
  intros Hc. unfold strip. rewrite lstrip_fixed by done.
  by rewrite rstrip_cons.
Qed.

Lemma not_comma_absent w :
  Forall (fun c => not_comma c = true) w -> comma ∉ w.
Proof.
  intros H Hin. rewrite Forall_forall in H. specialize (H _ Hin).
  vm_compute in H. discriminate.
Qed.

(** What the two name patterns find: a non-empty prefix of the text
    without a comma in it. *)
Lemma name_prefix r s mo :
  r = name_re \/ r = name_fallback_re ->
  match_ r s = Some mo ->
  exists w t, group "1" mo = w /\ s = w ++ t /\ w <> [] /\ comma ∉ w.
Proof.
  intros Hr H. unfold match_ in H.
  apply attempt_found in H as [(st' & w0 & Hm & _) _].
  unfold group. revert Hm. generalize (m_groups mo). intros cs Hm.
  destruct Hr as [-> | ->].
  - unfold name_re in Hm. cbn [cat] in Hm.
    invert_cat Hm Hbos Hm1. invert_cat Hm1 Hgrp Halt.
    inversion Hbos; subst. invert_grp Hgrp Hrun.
    apply matches_groupless in Halt as ->; [|done].
    apply matches_rep_cls in Hrun as (_ & w & Hs & Hw & Hl).
    rewrite lookup_insert_eq. cbn [default].
    rewrite (span_consumed _ _ _ Hs).
    exists w, (rest st0). split; [done|]. split; [by destruct Hs|]. split.
    + destruct w; [simpl in Hl; lia|done].
    + by apply not_comma_absent.
  - unfold name_fallback_re in Hm.
    invert_cat Hm Hbos Hgrp. inversion Hbos; subst. invert_grp Hgrp Hrun.
    apply matches_rep_cls in Hrun as (_ & w & Hs & Hw & Hl).
    rewrite lookup_insert_eq. cbn [default].
    rewrite (span_consumed _ _ _ Hs).
    exists w, (rest st'). split; [done|]. split; [by destruct Hs|]. split.
    + destruct w; [simpl in Hl; lia|done].
    + by apply not_comma_absent.
Qed.


Lemma fallback_matches s :
  1 <= run_length not_comma s -> is_Some (match_ name_fallback_re s).
Proof.
  intros Hn. unfold match_, attempt, name_fallback_re.
  rewrite run_cat, run_bos. cbn [pos Nat.eqb].
  rewrite run_grp. unfold plus, none_of. rewrite run_rep. cbn [rest].
  rewrite (rep_cls_run not_comma (run (Cls not_comma))
             (fun _ _ _ => eq_refl)); [|by eexists|done].
  apply Nat.leb_le in Hn. cbn [Nat.add]. rewrite Hn. by eexists.
Qed.

Lemma run_length_zero p s :
  run_length p s = 0 -> s = [] \/ exists c t, s = c :: t /\ p c = false.
Proof.
  destruct s as [|c t]; [by left|]. simpl.
  destruct (p c) eqn:E; [discriminate|]. right. by exists c, t.
Qed.

(** X9: the name of a parsed record has no comma in it and no whitespace
    at its ends; it is empty exactly when the text after the first bar,
    stripped, is empty or starts with a comma. *)
Theorem product_name_clean (text_chunk : pystr) (page_num : nat) :
  match split_once bar text_chunk, parse_product_text text_chunk page_num with
  | Some (part0, part1), Some p =>
      (comma ∉ name p) /\ trimmed (name p) /\
      (name p = [] <->
       strip part1 = [] \/ exists t, strip part1 = comma :: t)
  | _, _ => True
  end.
Proof.
  unfold parse_product_text.
  destruct (split_once bar text_chunk) as [[part0 part1]|]; [|done].
  cbn [name]. set (rest_text := strip part1).
  assert (Hfound : forall r mo,
            r = name_re \/ r = name_fallback_re ->
            match_ r rest_text = Some mo ->
            (comma ∉ strip (group "1" mo)) /\
            strip (group "1" mo) <> [] /\
            ~ (rest_text = [] \/ exists t, rest_text = comma :: t)).
  { intros r mo Hr Hmo.
    destruct (name_prefix r rest_text mo Hr Hmo) as (w & t & -> & Hs & Hw & Hc).
    split; [by apply strip_keeps_absent|].
    destruct w as [|c w]; [done|].
    assert (Hsp : isspace c = false).
    { destruct (strip_trimmed part1) as [Hfirst _].
      apply (Hfirst c (w ++ t)). exact Hs. }
    split; [by apply strip_nonempty|].
    intros [Hnil|[u Hu]]; rewrite Hs in *; [discriminate|].
    injection Hu as -> _. apply Hc, list_elem_of_here. }
  destruct (match_ name_re rest_text) as [mo|] eqn:E1.
  - destruct (Hfound _ mo (or_introl eq_refl) E1) as (Hc & Hne & Hrest).
    split; [done|]. split; [apply strip_trimmed|].
    split; [intros H; by destruct Hne|intros H; by destruct Hrest].
  - destruct (match_ name_fallback_re rest_text) as [mo|] eqn:E2.
    + destruct (Hfound _ mo (or_intror eq_refl) E2) as (Hc & Hne & Hrest).
      split; [done|]. split; [apply strip_trimmed|].
      split; [intros H; by destruct Hne|intros H; by destruct Hrest].
    + split; [apply not_elem_of_nil|]. split.
      { split; intros c t H; [discriminate|by destruct t]. }
      split; [|done]. intros _.
      destruct (run_length not_comma rest_text) as [|n] eqn:Hn.
      * apply run_length_zero in Hn as [Hn|(c & t & Hn & Hc)]; [by left|].
        right. exists t. rewrite Hn. f_equal.
        unfold not_comma in Hc. apply negb_false_iff in Hc.
        cbn [existsb] in Hc. rewrite orb_false_r in Hc.
        by apply N.eqb_eq in Hc.
      * destruct (fallback_matches rest_text) as [mo Hmo]; [lia|].
        congruence.
Qed.


Lemma search_found r s mo : search r s = Some mo -> exists st, found r st mo.
Proof.
  unfold search. intros H.
  pose proof (finditer_found r s) as Hall.
  destruct (finditer r s) as [|mo' l]; [discriminate|].
  injection H as ->. by apply Forall_cons in Hall as [Hmo _].
Qed.

(** X10: the price of a parsed record is empty or runs of digits with one
    of the characters comma, dot and hyphen between each two; it starts
    and ends with a digit. *)
Theorem product_price_text (text_chunk : pystr) (page_num : nat) :
  match parse_product_text text_chunk page_num with
  | Some p => price p = [] \/ amount_text (price p)
  | None => True
  end.
Proof.
  unfold parse_product_text.
  destruct (split_once bar text_chunk) as [[part0 part1]|]; [|done].
  cbn [price].
  destruct (search price_pattern (strip part1)) as [mo|] eqn:E; [|by left].
  right. apply search_found in E as (st & st' & w0 & Hm & _).
  unfold group. revert Hm. generalize (m_groups mo). intros cs Hm.
  unfold price_pattern in Hm. simpl in Hm.
  invert_cat Hm Heuro Hm1. invert_cat Hm1 Hws Hm2. invert_grp Hm2 Hm3.
  invert_cat Hm3 Hfirst Hsegs.
  apply matches_rep_cls in Hfirst as (_ & first & Hs1 & Hp1 & Hl1).
  apply matches_rep_sep in Hsegs as (_ & segs & Hs2 & _ & Hall).
  rewrite lookup_insert_eq. simpl.
  rewrite (span_consumed _ _ _ (span_trans _ _ _ _ _ Hs1 Hs2)).
  exists first, segs. split; [done|]. split; [|done].
  split; [|done]. destruct first; [simpl in Hl1; lia|done].
Qed.

Lemma sizes_group st mo :
  found sizes_pattern st mo ->
  Forall (fun c => c <> euro) (group "1" mo).
Proof.
  intros (st' & w0 & Hm & _). unfold group. revert Hm.
  generalize (m_groups mo). intros cs Hm.
  unfold sizes_pattern in Hm.
  invert_cat Hm Hgrp Hahead.
  apply matches_groupless in Hahead as ->; [|done].
  invert_grp Hgrp HG. rewrite lookup_insert_eq. cbn [default].
  destruct (matches_span _ _ _ _ _ HG) as [w Hw].
  rewrite (span_consumed _ _ _ Hw).
  apply (matches_accepts _ _ _ _ _ _ HG); [|done].
  simpl. repeat split; intros c Hc ->; vm_compute in Hc; discriminate.
Qed.

Lemma tidied_sizes_without_euro sizes0 :
  Forall (fun c => c <> euro) sizes0 ->
  Forall (fun c => c <> euro)
         match sizes0 with
         | [] => sizes0
         | _ :: _ =>
             sub wide_space_re [space] (sub footnote_re [asterisk] sizes0)
         end.
Proof.
  intros H. destruct sizes0 as [|c t]; [done|].
  apply sub_Forall; [constructor; [done|constructor]|].
  apply sub_Forall; [constructor; [done|constructor]|done].
Qed.

(** X11: the size list of a parsed record never holds a currency sign. *)
Theorem product_sizes_without_euro (text_chunk : pystr) (page_num : nat) :
  match parse_product_text text_chunk page_num with
  | Some p => euro ∉ sizes p
  | None => True
  end.
Proof.
  unfold parse_product_text.
  destruct (split_once bar text_chunk) as [[part0 part1]|]; [|done].
  cbn [sizes]. intros Hin.
  assert (H : Forall (fun c => c <> euro)
                (match search sizes_pattern (strip part1) with
                 | Some mo => strip (group "1" mo)
                 | None => []
                 end)).
  2:{ apply tidied_sizes_without_euro in H. rewrite Forall_forall in H.
      by apply (H _ Hin). }
  destruct (search sizes_pattern (strip part1)) as [mo|] eqn:E;
    [|constructor].
  apply search_found in E as [st Hf].
  by apply strip_Forall, (sizes_group st).
Qed.

(** X12: in the description of a parsed record whitespace occurs only as
    single spaces between other characters, never at an end. *)
Theorem product_description_normal (text_chunk : pystr) (page_num : nat) :
  match parse_product_text text_chunk page_num with
  | Some p => single_spaced (description p) /\ trimmed (description p)
  | None => True
  end.
Proof.
  unfold parse_product_text.
  destruct (split_once bar text_chunk) as [[part0 part1]|]; [|done].
  cbn [description]. unfold spaces_re. rewrite sub_spaces.
  split; [|apply strip_trimmed].
  apply strip_single_spaced, collapse_single_spaced.
Qed.


Import Closed.

Lemma matches_loop_closed text page_num ms : forall eps pp tf,
  let new :=
    omap (fun mo =>
            parse_product_text (take 1000 (drop (m_start mo) text))
                               (page_num + 1)) ms in
  matches_loop text page_num ms eps pp tf =
  (map Printed (map (record_line page_num) new),
   Some (eps ++ new, pp + length new, tf + length new)).
Proof.
  induction ms as [|mo ms IH]; intros eps pp tf;
    cbn [matches_loop omap list_omap].
  - simpl. unfold ret. by rewrite app_nil_r, !Nat.add_0_r.
  - cbn zeta in IH. cbn zeta.
    destruct (parse_product_text _ _) as [pd|]; [|apply IH].
    rewrite IH. cbn [bind emit app map length]. rewrite <- app_assoc.
    cbn [app].
    replace (pp + 1 + _) with (pp + S (length (omap (fun mo0 =>
      parse_product_text (take 1000 (drop (m_start mo0) text))
                         (page_num + 1)) ms))) by lia.
    replace (tf + 1 + _) with (tf + S (length (omap (fun mo0 =>
      parse_product_text (take 1000 (drop (m_start mo0) text))
                         (page_num + 1)) ms))) by lia.
    reflexivity.
Qed.



Lemma pages_loop_unreadable pattern doc : forall page_num eps tf,
  None ∈ doc ->
  exists t, pages_loop pattern page_num doc eps tf = (t, None)
            /\ printed_only t.
Proof.
  induction doc as [|[text|] doc IH]; intros page_num eps tf Hin.
  - by apply elem_of_nil in Hin.
  - apply elem_of_cons in Hin as [Hin|Hin]; [discriminate|].
    cbn [pages_loop]. rewrite matches_loop_closed. cbn [bind].
    set (n := 0 + _).
    destruct (IH (S page_num)
                 (eps ++ omap (fun mo =>
                    parse_product_text (take 1000 (drop (m_start mo) text))
                                       (page_num + 1))
                    (finditer pattern text))
                 (tf + length (omap (fun mo =>
                    parse_product_text (take 1000 (drop (m_start mo) text))
                                       (page_num + 1))
                    (finditer pattern text))) Hin) as (t & Ht & Hp).
    destruct (0 <? n); cbn [bind emit ret app]; rewrite Ht; eexists;
      (split; [reflexivity|]).
    + apply EffFacts.printed_only_app; [apply EffFacts.printed_only_map|].
      constructor; [by eexists|done].
    + apply EffFacts.printed_only_app; [apply EffFacts.printed_only_map|done].
  - exists []. split; [done|constructor].
Qed.

(** X14: when the text of some page cannot be read, a run of
    [extract_product_text_data] ends in the exception: after the
    directory is made it only prints, it writes no file and it does not
    close the document. *)
Theorem unreadable_page_stops_run (pdf_path output_folder : string)
    (pattern : regex) (doc : document) :
  None ∈ doc ->
  exists t,
    extract_product_text_data pdf_path output_folder pattern (Some doc) =
    (Opened pdf_path :: MadeDirs output_folder :: t, None)
    /\ printed_only t.
Proof.
  intros Hin.
  destruct (pages_loop_unreadable pattern doc 0 [] 0 Hin) as (t & Ht & Hp).
  exists t. split; [|done]. unfold extract_product_text_data.
  cbn [bind emit ret app]. by rewrite Ht.
Qed.

Lemma unreadable_page_stops_run_witness :
  exists t,
    extract_product_text_data "catalogue_2024_subset.pdf" "extracted_images"
      Images.default_pattern (Some [Some sample_page; None]) =
    (Opened "catalogue_2024_subset.pdf" :: MadeDirs "extracted_images" :: t,
     None)
    /\ printed_only t.
Proof.
  apply unreadable_page_stops_run.
  apply list_elem_of_further, list_elem_of_here.
Defined.

End InfoMore.

(** ** [scraper/scrape_pdf_images.py] *)

Module ImagesMore.
Import Str Re Eff Images Plain Saved Samples.
Import ReFacts ReMore StrFacts ImagesFacts.

Lemma saves_app t1 t2 : saves (t1 ++ t2) = saves t1 ++ saves t2.
Proof. apply omap_app. Qed.

Lemma inner_app t1 t2 : inner t1 -> inner t2 -> inner (t1 ++ t2).
Proof. intros H1 H2. apply Forall_app. by split. Qed.

Lemma process_image_unread output_folder pattern min_size blocks
    page_num img_index img :
  image_rects img = None ->
  process_image output_folder pattern min_size blocks page_num img_index img
  = ([], None).
Proof. intros H. unfold process_image. by rewrite H. Qed.

Lemma process_image_exact (output_folder : string) (pattern : regex)
    (min_size : nat) (blocks : list block) (page_num img_index : nat)
    (img : image) :
  image_read img = true ->
  exists t r,
    process_image output_folder pattern min_size blocks page_num img_index
                  img = (t, Some r) /\
    inner t /\
    ((exists pix text,
        saveable pattern min_size blocks img pix text /\
        r = Some (make_row page_num img_index pix text) /\
        saves t
        = [Info.path_join output_folder (filename page_num img_index)]) \/
     (r = None /\ saves t = [] /\
      forall pix text, ~ saveable pattern min_size blocks img pix text)).
Proof.
  unfold process_image, image_read.
  destruct (image_rects img) as [[|img_rect rects]|] eqn:Hrects;
    [intros _|intros _|discriminate].
  { exists [], None. split; [done|]. split; [constructor|]. right.
    split; [done|]. split; [done|].
    intros pix text (r' & rs & n & H & _). congruence. }
  destruct (matching_text pattern img_rect blocks) as [text|] eqn:Htext.
  2:{ exists [], None. split; [done|]. split; [constructor|]. right.
      split; [done|]. split; [done|].
      intros pix text (r' & rs & n & H & H' & _). congruence. }
  cbn [bind emit ret app].
  destruct (decoded img) as [pix|msg] eqn:Hdec.
  2:{ eexists _, None. split; [reflexivity|]. split; [by repeat constructor|].
      right. split; [done|]. split; [done|].
      intros pix text' (r' & rs & n & _ & _ & H & _). congruence. }
  destruct (colorspace pix) as [n|] eqn:Hcs.
  2:{ eexists _, None. split; [reflexivity|]. split; [by repeat constructor|].
      right. split; [done|]. split; [done|].
      intros pix' text' (r' & rs & n & _ & _ & H & H' & _). congruence. }
  destruct (if (n =? 1) || (n =? 3) then Ok tt else to_rgb pix)
    as [[]|msg] eqn:Hconv.
  2:{ eexists _, None. split; [reflexivity|]. split; [by repeat constructor|].
      right. split; [done|]. split; [done|].
      intros pix' text' (r' & rs & n' & _ & _ & H & H' & Hn & _).
      assert (pix' = pix) as -> by congruence.
      assert (n' = n) as -> by congruence.
      destruct Hn as [-> | [-> | [u Hu]]]; [done|done|].
      destruct ((n =? 1) || (n =? 3)); congruence. }
  destruct ((width pix <? min_size) || (height pix <? min_size)) eqn:Hsize.
  { eexists _, None. split; [reflexivity|]. split; [by repeat constructor|].
    right. split; [done|]. split; [done|].
    intros pix' text' (r' & rs & n' & _ & _ & H & _ & _ & Hw & Hh).
    assert (pix' = pix) as -> by congruence.
    apply orb_true_iff in Hsize as [Hs|Hs]; apply Nat.ltb_lt in Hs; lia. }
  apply orb_false_iff in Hsize as [Hw Hh]. apply Nat.ltb_ge in Hw, Hh.
  eexists _, (Some _). split; [reflexivity|].
  split; [by repeat constructor|]. left. exists pix, text.
  split; [|split; [done|reflexivity]].
  exists img_rect, rects, n. repeat split; try done.
  destruct (Nat.eqb_spec n 1) as [->|_]; [by left|].
  destruct (Nat.eqb_spec n 3) as [->|_]; [by right; left|].
  right. right. simpl in Hconv. by exists tt.
Qed.

(** X15: when [get_image_rects] raises for an image, the body of the loop
    ends in that exception, having printed and saved nothing.  Otherwise
    it returns, and it saves the image exactly when the image is placed on
    the page, a text block below it matches, its pixmap decodes with a
    colour space that is grey, RGB or convertible to RGB, and neither
    dimension is below the minimum; it then saves one file, under the name
    built from the page and the position of the image, and yields the row
    of the image; otherwise it saves nothing and yields no row. *)
Theorem image_saved_exactly (output_folder : string) (pattern : regex)
    (min_size : nat) (blocks : list block) (page_num img_index : nat)
    (img : image) :
  match image_rects img with
  | None =>
      process_image output_folder pattern min_size blocks page_num
                    img_index img = ([], None)
  | Some _ =>
      exists t r,
        process_image output_folder pattern min_size blocks page_num
                      img_index img = (t, Some r) /\
        inner t /\
        ((exists pix text,
            saveable pattern min_size blocks img pix text /\
            r = Some (make_row page_num img_index pix text) /\
            saves t
            = [Info.path_join output_folder (filename page_num img_index)])
         \/
         (r = None /\ saves t = [] /\
          forall pix text, ~ saveable pattern min_size blocks img pix text))
  end.
Proof.
  destruct (image_rects img) as [rects|] eqn:E.
  - apply process_image_exact. unfold image_read. by rewrite E.
  - by apply process_image_unread.
Qed.

Lemma make_row_fields page_num img_index pix text :
  let data := make_row page_num img_index pix text in
  r_page data = page_num + 1 /\ r_image_index data = img_index + 1 /\
  r_filename data = filename page_num img_index.
Proof.
  unfold make_row. by destruct (split_once bar text) as [[part0 part1]|].
Qed.

(** The loop over the images of a page returns when the rectangles of
    every image can be read, with the rows of the images it saved; it
    ends in the exception otherwise.  Either way it only prints and saves
    images. *)
Lemma images_loop_exact output_folder pattern min_size blocks page_num imgs :
  forall img_index acc,
  exists t res,
    images_loop output_folder pattern min_size blocks page_num img_index
                imgs acc = (t, res) /\
    inner t /\
    match res with
    | Some out =>
        forallb image_read imgs = true /\
        exists new,
          out = acc ++ new /\
          saves t = map (row_path output_folder) new /\
          page_rows page_num img_index (length imgs) new
    | None => forallb image_read imgs = false
    end.
Proof.
  induction imgs as [|img imgs IH]; intros img_index acc.
  - exists [], (Some acc). split; [done|]. split; [constructor|].
    split; [done|]. exists []. rewrite app_nil_r.
    split; [done|]. split; [done|]. split; constructor.
  - cbn [images_loop forallb].
    destruct (image_read img) eqn:Hread.
    2:{ unfold image_read in Hread.
        destruct (image_rects img) eqn:E; [discriminate|].
        rewrite process_image_unread by done.
        exists [], None. split; [done|]. by split; [constructor|]. }
    destruct (process_image_exact output_folder pattern min_size blocks
                page_num img_index img Hread) as (t1 & r & H1 & Ht1 & Hr).
    rewrite H1. cbn [bind andb].
    destruct Hr as [(pix & text & _ & -> & Hsave)|(-> & Hsave & _)].
    + destruct (IH (S img_index)
                   (acc ++ [make_row page_num img_index pix text]))
        as (t2 & res & -> & Ht2 & Hres).
      exists (t1 ++ t2), res. split; [done|].
      split; [by apply inner_app|].
      destruct res as [out|]; [|done].
      destruct Hres as (Hall_read & new & -> & Hs2 & Hall & Hsorted).
      split; [done|].
      destruct (make_row_fields page_num img_index pix text)
        as (Hp & Hi & Hf).
      eexists (_ :: new). split; [by rewrite <- app_assoc|].
      split; [|split].
      * rewrite saves_app, Hsave, Hs2. cbn [map app]. f_equal.
        unfold row_path. by rewrite Hf.
      * constructor.
        -- split; [done|]. rewrite Hi. split; [simpl; lia|].
           rewrite Hf. f_equal. lia.
        -- eapply Forall_impl; [exact Hall|]. simpl.
           intros x (Hx1 & Hx2 & Hx3). repeat split; [done|lia|lia|done].
      * constructor; [done|]. eapply Forall_impl; [exact Hall|]. simpl.
        intros x (_ & Hx & _). rewrite Hi. lia.
    + destruct (IH (S img_index) acc) as (t2 & res & -> & Ht2 & Hres).
      exists (t1 ++ t2), res. split; [done|].
      split; [by apply inner_app|].
      destruct res as [out|]; [|done].
      destruct Hres as (Hall_read & new & -> & Hs2 & Hall & Hsorted).
      split; [done|]. exists new. split; [done|].
      split; [|split; [|done]].
      * by rewrite saves_app, Hsave.
      * eapply Forall_impl; [exact Hall|]. simpl.
        intros x (Hx1 & Hx2 & Hx3). repeat split; [done|lia|lia|done].
Qed.

Lemma page_rows_sorted page_num img_index count rows :
  page_rows page_num img_index count rows -> StronglySorted row_before rows.
Proof.
  intros [Hall Hsorted].
  induction Hsorted as [|a l Hl IHl Ha]; [constructor|].
  apply Forall_cons in Hall as [(Ha1 & _) Hall].
  constructor; [by apply IHl|].
  rewrite Forall_forall in Hall, Ha. apply Forall_forall.
  intros b Hb. destruct (Hall _ Hb) as (Hb1 & _). right.
  split; [congruence|by apply Ha].
Qed.

Lemma document_rows_later page_num count rows :
  document_rows (S page_num) count rows ->
  document_rows page_num (S count) rows.
Proof.
  intros [Hall Hsorted]. split; [|done].
  eapply Forall_impl; [exact Hall|]. simpl.
  intros x (Hx1 & Hx2 & Hx3). repeat split; [lia|lia|done|done].
Qed.

(** The loop over the pages returns on a readable document, with the rows
    of the images it saved; it ends in the exception otherwise.  Either
    way it only prints and saves images. *)
Lemma pages_loop_exact output_folder pattern min_size doc :
  forall page_num acc,
  exists t res,
    pages_loop output_folder pattern min_size page_num doc acc = (t, res) /\
    inner t /\
    match res with
    | Some out =>
        readable doc = true /\
        exists new,
          out = acc ++ new /\
          saves t = map (row_path output_folder) new /\
          document_rows page_num (length doc) new
    | None => readable doc = false
    end.
Proof.
  induction doc as [|pg doc IH]; intros page_num acc.
  - exists [], (Some acc). split; [done|]. split; [constructor|].
    split; [done|]. exists []. rewrite app_nil_r.
    split; [done|]. split; [done|]. split; constructor.
  - cbn [pages_loop readable forallb]. unfold page_read.
    destruct (images pg) as [[|img imgs]|].
    3:{ exists [], None. split; [done|]. by split; [constructor|]. }
    { destruct (IH (S page_num) acc) as (t & res & -> & Ht & Hres).
      exists t, res. split; [done|]. split; [done|].
      destruct res as [out|]; [|done].
      destruct Hres as (Hread & new & -> & Hs & Hrows).
      split; [done|]. exists new. split; [done|]. split; [done|].
      by apply document_rows_later. }
    destruct (text_blocks pg) as [blocks|].
    2:{ exists [], None. split; [done|]. by split; [constructor|]. }
    destruct (images_loop_exact output_folder pattern min_size
                blocks page_num (img :: imgs) 0 acc)
      as (t1 & res1 & H1 & Ht1 & Hres1).
    rewrite H1. cbn [bind].
    destruct res1 as [out1|].
    2:{ exists t1, None. split; [done|]. split; [done|]. by rewrite Hres1. }
    destruct Hres1 as (Hread1 & new1 & -> & Hs1 & Hrows1).
    rewrite Hread1. cbn [andb].
    pose proof Hrows1 as [Hall1 Hsorted1].
    destruct (IH (S page_num) (acc ++ new1)) as (t2 & res2 & H2 & Ht2 & Hres2).
    assert (Hres : forall t,
      saves t = saves t1 ++ saves t2 ->
      match res2 with
      | Some out =>
          forallb page_read doc = true /\
          exists new,
            out = acc ++ new /\
            saves t = map (row_path output_folder) new /\
            document_rows page_num (length (pg :: doc)) new
      | None => forallb page_read doc = false
      end).
    { intros t Hst. destruct res2 as [out2|]; [|done].
      destruct Hres2 as (Hread2 & new2 & -> & Hs2 & Hall2 & Hsorted2).
      split; [done|]. exists (new1 ++ new2).
      split; [by rewrite app_assoc|].
      split; [by rewrite Hst, Hs1, Hs2, map_app|]. split.
      - apply Forall_app. split.
        + eapply Forall_impl; [exact Hall1|]. simpl.
          intros x (Hx1 & Hx2 & Hx3).
          rewrite Hx1. replace (page_num + 1 - 1) with page_num by lia.
          repeat split; [lia|lia|lia|done].
        + eapply Forall_impl; [exact Hall2|]. simpl.
          intros x (Hx1 & Hx2 & Hx3). repeat split; [lia|lia|done|done].
      - apply StronglySorted_app. split; [|split].
        + intros a b Ha Hb. rewrite Forall_forall in Hall1, Hall2.
          destruct (Hall1 _ Ha) as (Ha1 & _).
          destruct (Hall2 _ Hb) as (Hb1 & _). left. lia.
        + by eapply page_rows_sorted.
        + done. }
    destruct (0 <? _).
    + cbn [bind emit ret app]. rewrite H2.
      eexists _, res2. split; [reflexivity|]. split.
      * apply inner_app; [done|]. by constructor.
      * apply Hres. rewrite saves_app. reflexivity.
    + cbn [bind emit ret app]. rewrite H2.
      eexists _, res2. split; [reflexivity|]. split.
      * by apply inner_app.
      * apply Hres. by rewrite saves_app.
Qed.


(** X17: the rows that a run writes come in the order of the pages and,
    on a page, in the order of its images, so no image has two rows; the
    page of a row is one of the pages of the document, counted from 1,
    and the file name of a row is the one built from its page and its
    image index. *)
Theorem rows_in_order (pdf_path output_folder : string)
    (pattern : regex) (min_size : nat) (doc : document)
    (path : string) (fields : list string) (rows : list row) :
  WroteCsv path fields rows
    ∈ trace (extract_images_with_pattern pdf_path output_folder pattern
                                          min_size (Some doc)) ->
  StronglySorted row_before rows /\
  Forall (fun r =>
            1 <= r_page r <= length doc /\ 1 <= r_image_index r /\
            r_filename r = filename (r_page r - 1) (r_image_index r - 1))
         rows.
Proof.
  destruct (pages_loop_exact output_folder pattern min_size doc 0 [])
    as (t & res & H & Ht & Hres).
  unfold extract_images_with_pattern. cbn [bind emit ret app]. rewrite H.
  assert (Hinner : WroteCsv path fields rows ∉ t).
  { intros Hin. unfold inner in Ht. rewrite Forall_forall in Ht.
    by apply Ht in Hin. }
  destruct res as [out|].
  2:{ cbn [trace fst]. intros Hin.
      apply elem_of_cons in Hin as [Hin|Hin]; [discriminate|].
      by apply elem_of_cons in Hin as [Hin|Hin]; [discriminate|]. }
  destruct Hres as (_ & data & -> & _ & Hall & Hsorted). simpl app at 1.
  destruct data as [|d data]; cbn [bind emit ret app trace fst]; intros Hin;
    (apply elem_of_cons in Hin as [Hin|Hin]; [discriminate|]);
    (apply elem_of_cons in Hin as [Hin|Hin]; [discriminate|]);
    (apply elem_of_app in Hin as [Hin|Hin]; [done|]);
    (apply elem_of_cons in Hin as [Hin|Hin]; [discriminate|]).
  - apply elem_of_cons in Hin as [Hin|Hin]; [discriminate|].
    by apply elem_of_nil in Hin.
  - apply elem_of_cons in Hin as [Hin|Hin].
    + inversion Hin; subst. split; [done|].
      eapply Forall_impl; [exact Hall|]. simpl.
      intros x (Hx1 & Hx2 & Hx3). repeat split; [lia|lia|done|done].
    + repeat (apply elem_of_cons in Hin as [Hin|Hin]; [discriminate|]).
      by apply elem_of_nil in Hin.
Qed.

Lemma rows_in_order_witness :
  let rows :=
    [Row 1 2 "page_1_img_2.png" 640 480 (lit "16.1426 | Cotton Shirt")
         (lit "16.1426") (lit "Cotton Shirt")] in
  StronglySorted row_before rows /\
  Forall (fun r =>
            1 <= r_page r <= 1 /\ 1 <= r_image_index r /\
            r_filename r = filename (r_page r - 1) (r_image_index r - 1))
         rows.
Proof.
  eapply (rows_in_order "catalogue.pdf" "extracted_images" default_pattern
            default_min_size
            [Page (Some [small_image; large_image]) (Some [sample_block])]).
  vm_compute.
  repeat first [apply list_elem_of_here|apply list_elem_of_further].
Defined.

(** A run that saves an image and then fails to read the rectangles of
    the next one: the file stays, but no CSV file lists it and the
    document is left open. *)
Example saved_file_without_row :
  extract_images_with_pattern
    "catalogue.pdf" "extracted_images" default_pattern default_min_size
    (Some [Page (Some [large_image; Image 9 None (decoded large_image)])
                (Some [sample_block])]) =
  ([Opened "catalogue.pdf"; MadeDirs "extracted_images";
    Printed (Info.check_mark ++ lit "Found matching text: "
             ++ lit "'16.1426 | Cotton Shirt'");
    SavedImage "extracted_images/page_1_img_1.png";
    Printed (Info.check_mark ++ lit "Saved image from page 1, image 1 "
             ++ lit "(640x480px)")],
   None).
Proof. vm_compute. reflexivity. Qed.

Lemma search_attempt r s mo :
  search r s = Some mo ->
  exists b, attempt r b (Cursor (m_start mo) (drop (m_start mo) s)) = Some mo.
Proof.
  unfold search. intros H.
  pose proof (finditer_attempts r s) as Hall.
  destruct (finditer r s) as [|mo' l]; [discriminate|].
  injection H as ->. by apply Forall_cons in Hall as [Hmo _].
Qed.

Lemma default_pattern_bar st mo :
  found default_pattern st mo -> bar ∈ rest st.
Proof.
  intros (st' & w0 & Hm & _). unfold default_pattern in Hm. simpl in Hm.
  invert_cat Hm H1 Hm1. invert_cat Hm1 H2 Hm2. invert_cat Hm2 H3 Hm3.
  invert_cat Hm3 H4 Hbar.
  apply matches_span in H1 as [w1 [Hs1 _]].
  apply matches_span in H2 as [w2 [Hs2 _]].
  apply matches_span in H3 as [w3 [Hs3 _]].
  apply matches_span in H4 as [w4 [Hs4 _]].
  apply matches_cls_inv in Hbar as (_ & c & Hc & [Hs5 _]).
  apply N.eqb_eq in Hc as <-.
  rewrite Hs1, Hs2, Hs3, Hs4, Hs5. rewrite !elem_of_app.
  do 4 right. left. apply list_elem_of_here.
Qed.

Lemma default_pattern_text text :
  matches_pattern default_pattern text = true -> bar ∈ text.
Proof.
  unfold matches_pattern.
  destruct (search default_pattern text) as [mo|] eqn:E; [|discriminate].
  intros _. apply search_attempt in E as [b Hb].
  apply attempt_found in Hb as [Hf _]. apply default_pattern_bar in Hf.
  cbn [rest] in Hf. rewrite <- (take_drop (m_start mo) text).
  apply elem_of_app. by right.
Qed.

(** X18: with the default pattern, the text of every row that the loop
    yields has a bar in it; the name of the row is the text after the
    first bar, stripped, and its id is the text before it without its
    leading dots and whitespace, stripped, so that the id has no bar. *)
Theorem default_rows_split (output_folder : string) (min_size : nat)
    (blocks : list block) (page_num img_index : nat) (img : image)
    (t : list (event row)) (data : row) :
  process_image output_folder default_pattern min_size blocks page_num
                img_index img = (t, Some (Some data)) ->
  exists part0 part1,
    r_full_text data = part0 ++ bar :: part1 /\ (bar ∉ part0) /\
    r_name data = strip part1 /\
    r_id data
    = strip (drop (run_length dot_or_space (strip part0)) (strip part0)) /\
    (bar ∉ r_id data).
Proof.
  intros H.
  assert (Hread : image_read img = true).
  { unfold image_read. destruct (image_rects img) eqn:E; [done|].
    rewrite process_image_unread in H by done. discriminate. }
  destruct (process_image_exact output_folder default_pattern min_size
              blocks page_num img_index img Hread)
    as (t' & r & H' & _ & Hr).
  rewrite H in H'. injection H' as <- <-.
  destruct Hr as [(pix & text & Hsave & [= ->] & _)|(H' & _)];
    [|discriminate].
  destruct Hsave as (img_rect & rects & n & _ & Htext & _).
  apply matching_text_first in Htext
    as (before & blk & after & _ & _ & _ & Hm & _).
  apply default_pattern_text in Hm.
  unfold make_row.
  destruct (split_once bar text) as [[part0 part1]|] eqn:E.
  - apply InfoMore.split_once_some in E as [-> Hbar].
    exists part0, part1. cbn [r_full_text r_name r_id].
    rewrite InfoMore.sub_leading. repeat split; try done.
    by apply InfoMore.strip_keeps_absent, InfoMore.drop_keeps_absent,
       InfoMore.strip_keeps_absent.
  - apply InfoMore.split_once_none in E. done.
Qed.

Lemma default_rows_split_witness :
  exists part0 part1,
    lit "16.1426 | Cotton Shirt" = part0 ++ bar :: part1 /\ (bar ∉ part0) /\
    lit "Cotton Shirt" = strip part1 /\
    lit "16.1426"
    = strip (drop (run_length dot_or_space (strip part0)) (strip part0)) /\
    (bar ∉ lit "16.1426").
Proof.
  exact (default_rows_split "extracted_images" default_min_size
           [sample_block] 0 1 large_image _ _ eq_refl).
Defined.

End ImagesMore.

(** ** [search_price.py] *)

Module SearchMore.
Import Str Eff Search Samples StrFacts SearchFacts.

Section Lookup.
Variable lower : pystr -> pystr.

Lemma matching_none query_lower products :
  matching lower query_lower products = None <->
  exists p, p ∈ products /\ p !! "name" = None.
Proof.
  induction products as [|p products IH]; simpl.
  - split; [discriminate|]. intros (p & Hp & _). by apply elem_of_nil in Hp.
  - destruct (p !! "name") as [name|] eqn:Hp.
    + destruct (matching lower query_lower products) as [matches|].
      * split; [discriminate|]. intros (q & Hq & Hn).
        apply elem_of_cons in Hq as [->|Hq]; [congruence|].
        assert (H : Some matches = None) by (apply IH; by exists q).
        discriminate.
      * split; [|done]. intros _.
        destruct (proj1 IH eq_refl) as (q & Hq & Hn).
        exists q. split; [by apply list_elem_of_further|done].
    + split; [|done]. intros _. exists p. split; [apply list_elem_of_here|done].
Qed.

Lemma contains_trans a b c :
  contains a b = true -> contains b c = true -> contains a c = true.
Proof.
  rewrite !contains_spec. intros (p1 & q1 & ->) (p2 & q2 & ->).
  exists (p2 ++ p1), (q1 ++ q2). by rewrite <- !app_assoc.
Qed.

Lemma find_price_missing_name products query :
  (exists p, p ∈ products /\ p !! "name" = None) ->
  find_price lower products query = None.
Proof. intros H. by apply matching_none. Qed.

End Lookup.

(** X19: [find_price] fails, with the [KeyError] of the subscript, exactly
    when some row of the table has no name, whatever the query and
    wherever the row stands. *)
Theorem find_price_key_error (lower : pystr -> pystr)
    (products : list product) (query : pystr) :
  find_price lower products query = None <->
  exists p, p ∈ products /\ p !! "name" = None.
Proof. apply matching_none. Qed.

(** X20: a search with a query that occurs, lowered, in a second query,
    lowered, keeps every row that the second query finds: searching the
    rows it found for the second query gives what the second query finds
    in the whole table. *)
Theorem find_price_narrows (lower : pystr -> pystr)
    (products found : list product) (query1 query2 : pystr) :
  contains (lower query1) (lower query2) = true ->
  find_price lower products query1 = Some found ->
  find_price lower found query2 = find_price lower products query2.
Proof.
  intros Hsub. unfold find_price. revert found.
  induction products as [|p products IH]; intros found H; simpl in H.
  - by injection H as <-.
  - simpl. destruct (p !! "name") as [name|] eqn:Hp; [|discriminate].
    destruct (matching lower (lower query1) products) as [found'|];
      [|discriminate].
    specialize (IH found' eq_refl). injection H as <-.
    destruct (contains (lower query1) (lower name)) eqn:E1.
    + simpl. by rewrite Hp, IH.
    + rewrite IH.
      destruct (contains (lower query2) (lower name)) eqn:E2.
      * rewrite (contains_trans _ _ _ Hsub E2) in E1. discriminate.
      * by destruct (matching lower (lower query2) products).
Qed.

Lemma find_price_narrows_witness :
  exists found,
    find_price ascii_lower sample_table (lit "shirt") = Some found /\
    find_price ascii_lower found (lit "T-Shirt")
    = find_price ascii_lower sample_table (lit "T-Shirt").
Proof.
  eexists. split; [reflexivity|].
  apply (find_price_narrows ascii_lower sample_table _ (lit "shirt"));
    reflexivity.
Defined.

(** X21: what [main] prints depends on the line only through the line
    stripped.  With a query that is not blank, on a table whose rows have
    a name, it prints the line of every row whose lowered name contains
    the lowered query, in the order of the table, and [Product not found]
    alone when there is none; on a table with a row that has no name it
    ends in the exception and prints nothing. *)
Theorem main_output (lower : pystr -> pystr) (products : list product)
    (line : pystr) :
  strip line <> [] ->
  main lower products line = main lower products (strip line) /\
  (Forall (fun p : product => is_Some (p !! "name")) products ->
   main lower products line
   = (map Printed
          match List.filter (name_containsb lower (strip line)) products with
          | [] => [lit "Product not found"]
          | matches => map product_line matches
          end,
      Some tt)) /\
  ((exists p, p ∈ products /\ p !! "name" = None) ->
   main lower products line = ([], None)).
Proof.
  intros Hq. unfold main. rewrite strip_idem.
  split; [done|].
  destruct (strip line) as [|c q] eqn:E; [done|].
  split.
  - intros Hnamed. unfold find_price.
    rewrite (matching_filter lower (c :: q) products Hnamed).
    destruct (List.filter _ products); [done|].
    by rewrite EffFacts.print_all_spec.
  - intros H. apply (find_price_missing_name lower products (c :: q)) in H.
    by rewrite H.
Qed.

Lemma main_output_witness :
  main ascii_lower sample_table (lit " Scarf ")
  = ([Printed (lit "Wool Scarf (ID: 01.003T) -> Price: 5.5")], Some tt).
Proof.
  destruct (main_output ascii_lower sample_table (lit " Scarf "))
    as (_ & H & _); [by vm_compute|].
  exact (H sample_table_named).
Defined.

End SearchMore.
